(** * Face-tracker avatar demo: the retargeter and the rig adapter

    A shallow embedding of the per-frame path of [src/main.js]:
    [retarget], [Avatar.updateBlendshapes], [Avatar.applyMatrix],
    [FaceOverlay.applyMatrix] and [detectFaceLandmarks], together with the
    earlier copy of [retarget] kept in the second half of the file.

    Conventions of the embedding.
    - A JavaScript number is an IEEE-754 binary64 value: Rocq's primitive
      [float], whose operations round to nearest-even as JavaScript's do.
    - Mutation in place is made explicit: a function that receives an
      object returns the state of that object after the call next to its
      result, so that "the argument is left unchanged" is a statement about
      the returned state.
    - A thrown exception is [None]. *)

From Stdlib Require Import Floats ZArith Lia Ascii String.
From stdpp Require Import gmap strings list.

Set Warnings "-inexact-float".

(** ** JavaScript built-ins used by the source *)

Module Math.

(** [Math.min(a, b)]: NaN if either argument is NaN, otherwise the smaller
    one, with [-0] below [+0]. *)
Definition min (a b : float) : float :=
  if (is_nan a || is_nan b)%bool then nan
  else if (a <? b)%float then a
  else if (b <? a)%float then b
  else if get_sign a then a else b.

End Math.

(** [s.includes(searchString)]: [searchString] occurs in [s] at some
    position. *)
Fixpoint includes (s searchString : string) : bool :=
  String.prefix searchString s
  || match s with
     | EmptyString => false
     | String _ s' => includes s' searchString
     end.

(** A [Map] with string keys: its entries in insertion order.  [set] on a
    key already present replaces the value where the key stands; a new key
    goes to the end. *)
Module JsMap.

Abbreviation t V := (list (string * V)%type).

Definition empty {V} : t V := [].

Fixpoint set {V} (key : string) (value : V) (m : t V) : t V :=
  match m with
  | [] => [(key, value)]
  | (k, v) :: m' =>
      if String.eqb k key then (k, value) :: m' else (k, v) :: set key value m'
  end.

Fixpoint get {V} (key : string) (m : t V) : option V :=
  match m with
  | [] => None
  | (k, v) :: m' => if String.eqb k key then Some v else get key m'
  end.

Definition keys {V} (m : t V) : list string := m.*1.

End JsMap.

(** An [Array] of numbers, possibly with holes ([None]).  A read outside
    the array or of a hole gives [undefined] ([None]); a write past the end
    extends the array, leaving holes in between. *)
Module JsArray.

Abbreviation t := (list (option float)).

Definition get (a : t) (i : nat) : option float := mjoin (a !! i).

Definition set (a : t) (i : nat) (value : float) : t :=
  if decide (i < length a) then <[i := Some value]> a
  else a ++ replicate (i - length a) None ++ [Some value].

End JsArray.

(** ** The part of three.js the source calls

    three.js is an external library; [Matrix4] follows its documented
    behaviour.  The sixteen [elements] are stored by columns. *)
Module THREE.

Record Vector3 : Type := { x : float; y : float; z : float }.

(** One column of a matrix, [elements[4c] .. elements[4c+3]]. *)
Record Column : Type := { e0 : float; e1 : float; e2 : float; e3 : float }.

Record Matrix4 : Type :=
  { col0 : Column; col1 : Column; col2 : Column; col3 : Column }.

Definition column_times (c : Column) (k : float) : Column :=
  {| e0 := e0 c * k; e1 := e1 c * k; e2 := e2 c * k; e3 := e3 c * k |}.

(** [new THREE.Matrix4()]. *)
Definition identity : Matrix4 :=
  {| col0 := {| e0 := 1; e1 := 0; e2 := 0; e3 := 0 |};
     col1 := {| e0 := 0; e1 := 1; e2 := 0; e3 := 0 |};
     col2 := {| e0 := 0; e1 := 0; e2 := 1; e3 := 0 |};
     col3 := {| e0 := 0; e1 := 0; e2 := 0; e3 := 1 |} |}.

(** [m.scale(v)]: [te[0..3] *= v.x], [te[4..7] *= v.y], [te[8..11] *= v.z];
    the fourth column is left as it is. *)
Definition scale (m : Matrix4) (v : Vector3) : Matrix4 :=
  {| col0 := column_times (col0 m) (x v);
     col1 := column_times (col1 m) (y v);
     col2 := column_times (col2 m) (z v);
     col3 := col3 m |}.

(** [m.clone()]: a fresh matrix with the same elements. *)
Definition clone (m : Matrix4) : Matrix4 := m.

(** [this.copy(m)]: the elements of [m] written over those of [this]. *)
Definition copy (this m : Matrix4) : Matrix4 := m.

(** The two fields of an [Object3D] the source writes. *)
Record Object3D : Type :=
  { matrix : Matrix4; matrixAutoUpdate : bool }.

(** A mesh: its morph-target dictionary (name to slot) and its influence
    array, either of which may be missing. *)
Record Mesh : Type :=
  { morphTargetDictionary : option (gmap string nat);
    morphTargetInfluences : option JsArray.t }.

End THREE.

(** ** The detector's output (MediaPipe [FaceLandmarkerResult]) *)

Record Category : Type := { categoryName : string; score : float }.

Record Classifications : Type := { categories : list Category }.

(** A facial transformation matrix; [data] holds its sixteen numbers by
    columns, which is the layout [Matrix4.fromArray] reads. *)
Record Matrix : Type := { data : THREE.Matrix4 }.

Record FaceLandmarkerResult : Type :=
  { facialTransformationMatrixes : option (list Matrix);
    faceBlendshapes : option (list Classifications) }.

(** [new THREE.Matrix4().fromArray(data)]. *)
Definition fromArray (array : THREE.Matrix4) : THREE.Matrix4 :=
  THREE.copy THREE.identity array.

(** ** The retargeter (main.js, lines 232-258) *)

(** Multipliers so mouth/tongue/jaw are more responsive; eyes/brows
    slightly boosted. *)
Module BLENDSHAPE_GAIN.

Definition mouth : float := 2.2.
Definition jaw : float := 2.2.
Definition tongue : float := 2.5.
Definition eye : float := 1.2.
Definition brow : float := 1.2.
Definition default : float := 1.

End BLENDSHAPE_GAIN.

(** The chain of tests that picks [gain] for a category name. *)
Definition select_gain (name : string) : float :=
  if includes name "mouth" || includes name "Mouth" then BLENDSHAPE_GAIN.mouth
  else if includes name "jaw" || includes name "Jaw" then BLENDSHAPE_GAIN.jaw
  else if includes name "tongue" || includes name "Tongue"
       then BLENDSHAPE_GAIN.tongue
  else if includes name "eye" || includes name "Eye" then BLENDSHAPE_GAIN.eye
  else if includes name "brow" || includes name "Brow" then BLENDSHAPE_GAIN.brow
  else BLENDSHAPE_GAIN.default.

(** A [for] loop over [categories]: [body] receives the entry and the map
    built so far and returns the entry as the iteration leaves it and the
    updated map. *)
Fixpoint for_each_category
    (body : Category -> JsMap.t float -> Category * JsMap.t float)
    (categories : list Category) (coefsMap : JsMap.t float)
    : list Category * JsMap.t float :=
  match categories with
  | [] => ([], coefsMap)
  | blendshape :: rest =>
      let '(blendshape', coefsMap') := body blendshape coefsMap in
      let '(rest', coefsMap'') := for_each_category body rest coefsMap' in
      (blendshape' :: rest', coefsMap'')
  end.

(** One iteration of [retarget]'s loop: the entry is only read. *)
Definition retarget_body (blendshape : Category) (coefsMap : JsMap.t float)
    : Category * JsMap.t float :=
  let name := categoryName blendshape in
  let gain := select_gain name in
  let score := Math.min 1 (score blendshape * gain) in
  (blendshape, JsMap.set name score coefsMap).

(** [retarget(blendshapes)]: the state of [blendshapes] after the call and
    the returned map.  [blendshapes[0].categories] throws on an empty
    array. *)
Definition retarget (blendshapes : list Classifications)
    : option (list Classifications * JsMap.t float) :=
  match blendshapes with
  | [] => None
  | first :: others =>
      let '(categories', coefsMap) :=
        for_each_category retarget_body (categories first) JsMap.empty in
      Some ({| categories := categories' |} :: others, coefsMap)
  end.

(** ** The rig adapter (main.js, lines 94-206) *)

(** The options object of the two [applyMatrix] methods. *)
Record MatrixRetargetOptions : Type := { opt_scale : option float }.

(** [{}] and [{ scale: s }]. *)
Definition no_options : MatrixRetargetOptions := {| opt_scale := None |}.
Definition with_scale (s : float) : MatrixRetargetOptions :=
  {| opt_scale := Some s |}.

(** [gltf.scene]. *)
Record GLTF : Type := { scene : THREE.Object3D }.

Module Avatar.

Record t : Type :=
  { gltf : option GLTF;
    morphTargetMeshes : list THREE.Mesh }.

(** The inner loop of [updateBlendshapes] on one mesh's influence array.
    [Object.keys(dictionary).includes(name)] is membership in the
    dictionary's own keys; on an own key [dictionary[name]] is its slot. *)
Definition write_influences (dictionary : gmap string nat)
    (blendshapes : JsMap.t float) (influences : JsArray.t) : JsArray.t :=
  foldl (fun influences '(name, value) =>
           if bool_decide (name ∈ dom dictionary) then
             match dictionary !! name with
             | Some idx => JsArray.set influences idx value
             | None => influences
             end
           else influences)
        influences blendshapes.

Definition update_mesh (blendshapes : JsMap.t float) (mesh : THREE.Mesh)
    : THREE.Mesh :=
  match THREE.morphTargetDictionary mesh, THREE.morphTargetInfluences mesh with
  | Some dictionary, Some influences =>
      {| THREE.morphTargetDictionary := Some dictionary;
         THREE.morphTargetInfluences :=
           Some (write_influences dictionary blendshapes influences) |}
  | _, _ => mesh
  end.

Definition updateBlendshapes (this : t) (blendshapes : JsMap.t float) : t :=
  {| gltf := gltf this;
     morphTargetMeshes := update_mesh blendshapes <$> morphTargetMeshes this |}.

(** [applyMatrix(matrix, matrixRetargetOptions = {})]: the avatar and the
    caller's matrix after the call. *)
Definition applyMatrix (this : t) (matrix : THREE.Matrix4)
    (matrixRetargetOptions : MatrixRetargetOptions) : t * THREE.Matrix4 :=
  let scale := default 1%float (opt_scale matrixRetargetOptions) in
  match gltf this with
  | None => (this, matrix)
  | Some g =>
      let matrix' :=
        THREE.scale matrix
          {| THREE.x := scale; THREE.y := scale; THREE.z := scale |} in
      ({| gltf :=
            Some {| scene :=
                      {| THREE.matrix :=
                           THREE.copy (THREE.matrix (scene g)) matrix';
                         THREE.matrixAutoUpdate := false |} |};
          morphTargetMeshes := morphTargetMeshes this |},
       matrix')
  end.

End Avatar.

(** 2D image overlay that follows the face. *)
Module FaceOverlay.

Record t : Type :=
  { mesh : option THREE.Object3D;
    scale : float }.

(** [applyMatrix(matrix, opts = {})]: the overlay and the caller's matrix
    after the call; the scaling is done on a clone. *)
Definition applyMatrix (this : t) (matrix : THREE.Matrix4)
    (opts : MatrixRetargetOptions) : t * THREE.Matrix4 :=
  match mesh this with
  | None => (this, matrix)
  | Some _ =>
      let scale := default (scale this) (opt_scale opts) in
      let m :=
        THREE.scale (THREE.clone matrix)
          {| THREE.x := scale; THREE.y := scale; THREE.z := scale |} in
      ({| mesh := Some {| THREE.matrix := m; THREE.matrixAutoUpdate := false |};
          scale := FaceOverlay.scale this |},
       matrix)
  end.

End FaceOverlay.

(** ** The per-frame path (main.js, lines 208-230) *)

(** The video element, as far as the detector is concerned: the picture it
    currently shows. *)
Definition HTMLVideoElement : Type := nat.

Record FaceLandmarker : Type :=
  { detectForVideo : HTMLVideoElement -> float -> FaceLandmarkerResult }.

(** The module-level handles read by [detectFaceLandmarks]. *)
Record Globals : Type :=
  { faceLandmarker : option FaceLandmarker;
    video : option HTMLVideoElement;
    avatar : option Avatar.t;
    faceOverlay : option FaceOverlay.t }.

(** [if (blendshapes && blendshapes.length > 0)
       avatar.updateBlendshapes(retarget(blendshapes));] *)
Definition retarget_step (avatar : Avatar.t)
    (blendshapes : option (list Classifications)) : option Avatar.t :=
  match blendshapes with
  | Some (first :: others) =>
      '(_, coefsMap) ← retarget (first :: others);
      Some (Avatar.updateBlendshapes avatar coefsMap)
  | _ => Some avatar
  end.

(** [detectFaceLandmarks(time)]: the handles after the call. *)
Definition detectFaceLandmarks (g : Globals) (time : float) : option Globals :=
  match faceLandmarker g, video g with
  | Some detector, Some v =>
      let landmarks := detectForVideo detector v time in
      match facialTransformationMatrixes landmarks with
      | Some (first :: _) =>
          let matrix := fromArray (data first) in
          let '(faceOverlay', matrix) :=
            match faceOverlay g with
            | Some overlay =>
                let '(overlay', matrix') :=
                  FaceOverlay.applyMatrix overlay matrix (with_scale 40) in
                (Some overlay', matrix')
            | None => (None, matrix)
            end in
          match avatar g with
          | Some av =>
              let '(av', _) := Avatar.applyMatrix av matrix (with_scale 40) in
              av'' ← retarget_step av' (faceBlendshapes landmarks);
              Some {| faceLandmarker := faceLandmarker g; video := video g;
                      avatar := Some av''; faceOverlay := faceOverlay' |}
          | None =>
              Some {| faceLandmarker := faceLandmarker g; video := video g;
                      avatar := None; faceOverlay := faceOverlay' |}
          end
      | _ => Some g
      end
  | _, _ => Some g
  end.

(** ** The earlier copy of the retargeter (main.js, lines 587-603) *)

Module Legacy.

(** One iteration: the [switch] multiplies the entry's own [score] for four
    names, then the map reads the entry back. *)
Definition retarget_body (blendshape : Category) (coefsMap : JsMap.t float)
    : Category * JsMap.t float :=
  let name := categoryName blendshape in
  let blendshape' :=
    if String.eqb name "browOuterUpLeft" || String.eqb name "browOuterUpRight"
       || String.eqb name "eyeBlinkLeft" || String.eqb name "eyeBlinkRight"
    then {| categoryName := name; score := score blendshape * 1.2 |}
    else blendshape in
  (blendshape',
   JsMap.set (categoryName blendshape') (score blendshape') coefsMap).

Definition retarget (blendshapes : list Classifications)
    : option (list Classifications * JsMap.t float) :=
  match blendshapes with
  | [] => None
  | first :: others =>
      let '(categories', coefsMap) :=
        for_each_category retarget_body (categories first) JsMap.empty in
      Some ({| categories := categories' |} :: others, coefsMap)
  end.

(** [detectFaceLandmarks(time)] of the earlier copy (lines 570-585): it has
    no overlay, returns at once without an avatar, and tests the matrices
    and the blendshapes one after the other. *)
Definition detectFaceLandmarks (g : Globals) (time : float) : option Globals :=
  match faceLandmarker g, video g, avatar g with
  | Some detector, Some v, Some av =>
      let landmarks := detectForVideo detector v time in
      let av' :=
        match facialTransformationMatrixes landmarks with
        | Some (first :: _) =>
            (Avatar.applyMatrix av (fromArray (data first)) (with_scale 40)).1
        | _ => av
        end in
      match faceBlendshapes landmarks with
      | Some (first :: others) =>
          '(_, coefsMap) ← retarget (first :: others);
          Some {| faceLandmarker := faceLandmarker g; video := video g;
                  avatar := Some (Avatar.updateBlendshapes av' coefsMap);
                  faceOverlay := faceOverlay g |}
      | _ =>
          Some {| faceLandmarker := faceLandmarker g; video := video g;
                  avatar := Some av'; faceOverlay := faceOverlay g |}
      end
  | _, _, _ => Some g
  end.

End Legacy.

(** ** Definitions used to state the properties *)

(** A score in [[0,1]], by JavaScript's comparisons. *)
Definition in_unit_interval (w : float) : Prop :=
  (0 <=? w)%float = true /\ (w <=? 1)%float = true.

(** A binary64 value that is zero of either sign, a positive finite number
    or [+infinity]. *)
Definition sf_nonneg (x : spec_float) : Prop :=
  match x with
  | S754_zero _ => True
  | S754_infinity s | S754_finite s _ _ => s = false
  | S754_nan => False
  end.

(** The first detected face with the given score list, and nothing else. *)
Definition one_face (scores : list Category) : list Classifications :=
  [{| categories := scores |}].

Definition entry (name : string) (raw : float) : Category :=
  {| categoryName := name; score := raw |}.

(** The weight the gain table gives an entry. *)
Definition weight_of (e : Category) : float :=
  Math.min 1 (score e * select_gain (categoryName e)).

(** The weight a returned map holds for a name, if the call returned. *)
Definition weight_from
    (result : option (list Classifications * JsMap.t float))
    (name : string) : option float :=
  '(_, coefsMap) ← result; JsMap.get name coefsMap.

(** The state of the argument after the call, if the call returned. *)
Definition input_after
    (result : option (list Classifications * JsMap.t float))
    : option (list Classifications) :=
  fst <$> result.

(** The four names the earlier copy boosts, and what it does to an entry. *)
Definition legacy_boosted (name : string) : bool :=
  bool_decide (name ∈ ["browOuterUpLeft"; "browOuterUpRight";
                        "eyeBlinkLeft"; "eyeBlinkRight"]).

Definition legacy_entry (e : Category) : Category :=
  if legacy_boosted (categoryName e)
  then {| categoryName := categoryName e; score := score e * 1.2 |}
  else e.

(** The ordered category list of the gain table. *)
Definition gain_categories : list (string * float) :=
  [("mouth", BLENDSHAPE_GAIN.mouth); ("jaw", BLENDSHAPE_GAIN.jaw);
   ("tongue", BLENDSHAPE_GAIN.tongue); ("eye", BLENDSHAPE_GAIN.eye);
   ("brow", BLENDSHAPE_GAIN.brow)].

(** ASCII case mapping, as [toLowerCase] and [toUpperCase] act on the
    letters of the category names. *)
Definition lower_ascii (c : ascii) : ascii :=
  let n := nat_of_ascii c in
  if (65 <=? n)%nat && (n <=? 90)%nat then ascii_of_nat (n + 32) else c.

Definition upper_ascii (c : ascii) : ascii :=
  let n := nat_of_ascii c in
  if (97 <=? n)%nat && (n <=? 122)%nat then ascii_of_nat (n - 32) else c.

Fixpoint toLowerCase (s : string) : string :=
  match s with
  | EmptyString => EmptyString
  | String c s' => String (lower_ascii c) (toLowerCase s')
  end.

(** A category with its first letter in upper case: ["Mouth"] for
    ["mouth"]. *)
Definition capitalized (category : string) : string :=
  match category with
  | EmptyString => EmptyString
  | String c s' => String (upper_ascii c) s'
  end.

(** First match over an ordered list of (category, gain) pairs, with the
    default gain when no category matches. *)
Definition first_match (matches : string -> bool)
    (table : list (string * float)) : float :=
  match List.find (fun entry => matches entry.1) table with
  | Some (_, gain) => gain
  | None => BLENDSHAPE_GAIN.default
  end.

(** The gain selection as the specification words it: a case-insensitive
    substring match against the ordered category list, first match wins. *)
Definition case_insensitive_gain (name : string) : float :=
  first_match (fun category => includes (toLowerCase name) category)
              gain_categories.

(** The gain selection with the two spellings the source tests: the
    category in lower case, or with a capital first letter. *)
Definition two_spellings_gain (name : string) : float :=
  first_match (fun category =>
                 includes name category || includes name (capitalized category))
              gain_categories.

(** Every name has one slot at most: the dictionary is injective. *)
Definition injective_dictionary (dictionary : gmap string nat) : Prop :=
  forall n1 n2 slot,
    dictionary !! n1 = Some slot -> dictionary !! n2 = Some slot -> n1 = n2.

Definition well_formed_mesh (mesh : THREE.Mesh) : Prop :=
  forall dictionary,
    THREE.morphTargetDictionary mesh = Some dictionary ->
    injective_dictionary dictionary.

(** The weight of the last entry of the map whose name the dictionary
    sends to [slot], if there is one. *)
Definition last_writer (dictionary : gmap string nat)
    (weights : JsMap.t float) (slot : nat) : option float :=
  snd <$> last (filter (fun e => dictionary !! e.1 = Some slot) weights).

(** The per-frame score list is empty or absent: no blendshape array, no
    detected face, or a first face without scores. *)
Definition no_scores (blendshapes : option (list Classifications)) : Prop :=
  blendshapes = None \/ blendshapes = Some []
  \/ exists others, blendshapes = Some ({| categories := [] |} :: others).

(** No head pose this frame: no matrix array, or an empty one. *)
Definition no_pose (matrices : option (list Matrix)) : Prop :=
  matrices = None \/ matrices = Some [].

(** The influence arrays of the avatar's meshes. *)
Definition influences_of (g : Globals) : option (list (option JsArray.t)) :=
  (fun av => THREE.morphTargetInfluences <$> Avatar.morphTargetMeshes av)
    <$> avatar g.

(** *** Sample data *)

Definition uniform (s : float) : THREE.Vector3 :=
  {| THREE.x := s; THREE.y := s; THREE.z := s |}.

Definition loaded_scene : GLTF :=
  {| scene := {| THREE.matrix := THREE.identity;
                 THREE.matrixAutoUpdate := true |} |}.

(** A mesh whose index holds only ["jawOpen"], at slot 0 of two. *)
Definition jaw_mesh : THREE.Mesh :=
  {| THREE.morphTargetDictionary := Some {[ "jawOpen" := 0%nat ]};
     THREE.morphTargetInfluences := Some [Some 0.1%float; Some 0.2%float] |}.

Definition sample_weights : JsMap.t float :=
  [("jawOpen", 0.7%float); ("eyeBlinkLeft", 0.4%float)].

Definition unloaded_avatar : Avatar.t :=
  {| Avatar.gltf := None; Avatar.morphTargetMeshes := [] |}.

Definition loaded_avatar : Avatar.t :=
  {| Avatar.gltf := Some loaded_scene;
     Avatar.morphTargetMeshes := [jaw_mesh] |}.

(** A mesh whose index gives two names the same slot, and weights for
    both. *)
Definition shared_slot_mesh : THREE.Mesh :=
  {| THREE.morphTargetDictionary :=
       Some {[ "jawOpen" := 0%nat; "mouthOpen" := 0%nat ]};
     THREE.morphTargetInfluences := Some [Some 0.1%float] |}.

Definition shared_slot_avatar : Avatar.t :=
  {| Avatar.gltf := Some loaded_scene;
     Avatar.morphTargetMeshes := [shared_slot_mesh] |}.

Definition shared_slot_weights : JsMap.t float :=
  [("jawOpen", 0.3%float); ("mouthOpen", 0.6%float)].

Definition loaded_overlay : FaceOverlay.t :=
  {| FaceOverlay.mesh :=
       Some {| THREE.matrix := THREE.identity;
               THREE.matrixAutoUpdate := true |};
     FaceOverlay.scale := 40 |}.

(** A pose: a translation by (1, 2, 3). *)
Definition sample_pose : THREE.Matrix4 :=
  {| THREE.col0 := THREE.col0 THREE.identity;
     THREE.col1 := THREE.col1 THREE.identity;
     THREE.col2 := THREE.col2 THREE.identity;
     THREE.col3 :=
       {| THREE.e0 := 1; THREE.e1 := 2; THREE.e2 := 3; THREE.e3 := 1 |} |}.

(** A detector that reports the same result for every frame. *)
Definition constant_detector (r : FaceLandmarkerResult) : FaceLandmarker :=
  {| detectForVideo := fun _ _ => r |}.

Definition running (r : FaceLandmarkerResult) : Globals :=
  {| faceLandmarker := Some (constant_detector r); video := Some 0%nat;
     avatar := Some loaded_avatar; faceOverlay := None |}.

(** A pose without scores, and scores without a pose. *)
Definition pose_only : FaceLandmarkerResult :=
  {| facialTransformationMatrixes := Some [{| data := sample_pose |}];
     faceBlendshapes := Some [] |}.

Definition pose_and_scores : FaceLandmarkerResult :=
  {| facialTransformationMatrixes := Some [{| data := sample_pose |}];
     faceBlendshapes := Some (one_face [entry "jawOpen" 0.5]) |}.

Definition scores_only : FaceLandmarkerResult :=
  {| facialTransformationMatrixes := Some [];
     faceBlendshapes := Some (one_face [entry "jawOpen" 0.5]) |}.

Set Warnings "-register-all".

(** ** Loading a model (main.js, lines 94-138)

    The avatar's constructor, the completion callback of [loadModel] and
    [init].  An object of a scene graph is identified by its [uuid]. *)
Module AvatarLoad.

(** What [init] and [updateBlendshapes] read and write of one object of
    the graph; [morph] is the object's dictionary and influence array.
    The transform of [gltf.scene], which [applyMatrix] writes, is kept in
    [Avatar.gltf] and nowhere else: an [ObjectData] has no transform. *)
Record ObjectData : Type :=
  { uuid : nat;
    isBone : bool;
    isMesh : bool;
    frustumCulled : bool;
    morph : THREE.Mesh }.

Inductive SceneObject : Type :=
  | Node (own : ObjectData) (children : list SceneObject).

Definition own_data (object : SceneObject) : ObjectData :=
  match object with Node own _ => own end.

Definition children_of (object : SceneObject) : list SceneObject :=
  match object with Node _ children => children end.

(** The [gltf] the loader hands over: the fields of [gltf.scene] that
    [applyMatrix] writes, and the graph rooted at [gltf.scene]. *)
Record GLTFAsset : Type :=
  { loaded : GLTF;
    graph : SceneObject }.

(** [object.traverse(callback)] of three.js: the callback on the object
    itself, then the traversal of each child in order. *)
Fixpoint traverse {S : Type}
    (callback : ObjectData -> S -> ObjectData * S)
    (object : SceneObject) (s : S) : SceneObject * S :=
  match object with
  | Node own children =>
      let '(own', s1) := callback own s in
      let '(children', s2) :=
        (fix each (cs : list SceneObject) (s : S) : list SceneObject * S :=
           match cs with
           | [] => ([], s)
           | c :: cs' =>
               let '(c', s') := traverse callback c s in
               let '(cs'', s'') := each cs' s' in
               (c' :: cs'', s'')
           end) children s1 in
      (Node own' children', s2)
  end.

(** [parent.add(object)] of three.js on the children of [parent]: the
    object leaves its place if it is already a child, and goes to the
    end. *)
Definition add (children : list SceneObject) (object : SceneObject)
    : list SceneObject :=
  filter (fun child => uuid (own_data child) <> uuid (own_data object))
         children
  ++ [object].

(** [parent.remove(...objects)] of three.js on the children of [parent]:
    the listed objects are taken out; with no argument nothing is. *)
Definition remove (children : list SceneObject) (objects : list nat)
    : list SceneObject :=
  filter (fun child => uuid (own_data child) ∉ objects) children.

(** The avatar with the fields the per-frame model leaves out: [url], the
    children of [this.scene], [this.root] and which object [this.gltf.scene]
    is.  [this.morphTargetMeshes] holds mesh objects of the graph, not
    copies of them: [avatar] has them as the avatar reads them, and
    [morphTargetMeshIds] says, entry by entry, which objects of the graph
    they are. *)
Record t : Type :=
  { url : string;
    scene : list SceneObject;
    avatar : Avatar.t;
    morphTargetMeshIds : list nat;
    root : option nat;
    gltfScene : option nat }.

(** The callback of [init]: the state is [this.root] and
    [this.morphTargetMeshes], the latter as the meshes and as the objects
    they are. *)
Definition init_callback (object : ObjectData)
    (s : option nat * list THREE.Mesh * list nat)
    : ObjectData * (option nat * list THREE.Mesh * list nat) :=
  let '(root, meshes, ids) := s in
  let root :=
    if isBone object && negb (bool_decide (is_Some root))
    then Some (uuid object) else root in
  if negb (isMesh object) then (object, (root, meshes, ids))
  else
    let mesh :=
      {| uuid := uuid object; isBone := isBone object;
         isMesh := isMesh object; frustumCulled := false;
         morph := morph object |} in
    match THREE.morphTargetDictionary (morph mesh),
          THREE.morphTargetInfluences (morph mesh) with
    | Some _, Some _ =>
        (mesh, (root, meshes ++ [morph mesh], ids ++ [uuid mesh]))
    | _, _ => (mesh, (root, meshes, ids))
    end.

(** [init(gltf)]: the graph, [this.root] and [this.morphTargetMeshes]
    after the traversal. *)
Definition init (root : option nat) (meshes : list THREE.Mesh)
    (ids : list nat) (gltf : GLTFAsset)
    : SceneObject * (option nat * list THREE.Mesh * list nat) :=
  traverse init_callback (graph gltf) (root, meshes, ids).

(** [new Avatar(url, scene)], up to the request that [loadModel] issues. *)
Definition constructor (url : string) (scene : list SceneObject) : t :=
  {| url := url; scene := scene;
     avatar := {| Avatar.gltf := None; Avatar.morphTargetMeshes := [] |};
     morphTargetMeshIds := [];
     root := None; gltfScene := None |}.

(** [this.gltf.scene.remove()]: [remove] without arguments, sent to the
    previous [gltf.scene], which is looked up among the scene's children. *)
Definition remove_from_previous (scene : list SceneObject)
    (previous : option nat) : list SceneObject :=
  (fun child =>
     if bool_decide (Some (uuid (own_data child)) = previous)
     then Node (own_data child) (remove (children_of child) [])
     else child) <$> scene.

(** The completion callback of [loadModel].  [init] runs on the object
    that [this.scene.add] has just made a child of the scene, so the scene
    holds the graph as [init] leaves it. *)
Definition onLoad (this : t) (gltf : GLTFAsset) : t :=
  let '(scene0, meshes, ids) :=
    match Avatar.gltf (avatar this) with
    | Some _ => (remove_from_previous (scene this) (gltfScene this), [], [])
    | None => (scene this, Avatar.morphTargetMeshes (avatar this),
               morphTargetMeshIds this)
    end in
  let '(graph', (root', meshes', ids')) := init (root this) meshes ids gltf in
  {| url := url this;
     scene := add scene0 graph';
     avatar := {| Avatar.gltf := Some (loaded gltf);
                  Avatar.morphTargetMeshes := meshes' |};
     morphTargetMeshIds := ids';
     root := root';
     gltfScene := Some (uuid (own_data (graph gltf))) |}.

(** A function on the objects, applied to every object of a graph. *)
Fixpoint map_graph (f : ObjectData -> ObjectData) (object : SceneObject)
    : SceneObject :=
  match object with
  | Node own children => Node (f own) (map (map_graph f) children)
  end.

(** What [updateBlendshapes] does to an object of the graph: the objects
    that [this.morphTargetMeshes] holds get the writes to their influence
    arrays, the others none. *)
Definition write_through (ids : list nat) (blendshapes : JsMap.t float)
    (object : ObjectData) : ObjectData :=
  if bool_decide (uuid object ∈ ids)
  then {| uuid := uuid object; isBone := isBone object;
          isMesh := isMesh object; frustumCulled := frustumCulled object;
          morph := Avatar.update_mesh blendshapes (morph object) |}
  else object.

(** A call on the avatar: the loader completing, or one of the two methods
    of the per-frame path. *)
Inductive Call : Type :=
  | Load (gltf : GLTFAsset)
  | UpdateBlendshapes (blendshapes : JsMap.t float)
  | ApplyMatrix (matrix : THREE.Matrix4) (options : MatrixRetargetOptions).

(** [updateBlendshapes] writes to the mesh objects themselves, which the
    scene graph holds as well: the avatar's meshes and the scene's change
    together.  [applyMatrix] writes the transform of [gltf.scene] only. *)
Definition call (this : t) (c : Call) : t :=
  match c with
  | Load gltf => onLoad this gltf
  | UpdateBlendshapes blendshapes =>
      {| url := url this;
         scene :=
           map_graph (write_through (morphTargetMeshIds this) blendshapes)
             <$> scene this;
         avatar := Avatar.updateBlendshapes (avatar this) blendshapes;
         morphTargetMeshIds := morphTargetMeshIds this;
         root := root this; gltfScene := gltfScene this |}
  | ApplyMatrix matrix options =>
      {| url := url this; scene := scene this;
         avatar := (Avatar.applyMatrix (avatar this) matrix options).1;
         morphTargetMeshIds := morphTargetMeshIds this;
         root := root this; gltfScene := gltfScene this |}
  end.

Definition calls (this : t) (cs : list Call) : t := foldl call this cs.

(** The objects of a graph in the order [traverse] visits them. *)
Fixpoint preorder (object : SceneObject) : list ObjectData :=
  match object with
  | Node own children => own :: flat_map preorder children
  end.

(** The object as [init] leaves it. *)
Definition after_init (object : ObjectData) : ObjectData :=
  if isMesh object
  then {| uuid := uuid object; isBone := isBone object;
          isMesh := isMesh object; frustumCulled := false;
          morph := morph object |}
  else object.

(** The meshes that expose both a dictionary and an influence array, and
    which objects they are. *)
Definition morph_mesh (object : ObjectData) : option THREE.Mesh :=
  if isMesh object
     && bool_decide (is_Some (THREE.morphTargetDictionary (morph object)))
     && bool_decide (is_Some (THREE.morphTargetInfluences (morph object)))
  then Some (morph object) else None.

Definition morph_meshes (objects : list ObjectData) : list THREE.Mesh :=
  omap morph_mesh objects.

Definition morph_mesh_ids (objects : list ObjectData) : list nat :=
  omap (fun object => (fun _ => uuid object) <$> morph_mesh object) objects.

(** The first bone among the objects. *)
Definition first_bone (objects : list ObjectData) : option nat :=
  uuid <$> head (filter (fun object => isBone object = true) objects).

(** The assets of the [Load] calls, in order. *)
Definition loads (cs : list Call) : list GLTFAsset :=
  omap (fun c => match c with Load gltf => Some gltf | _ => None end) cs.

End AvatarLoad.

(** ** The frame loop (main.js, lines 260-265)

    [onVideoFrame] runs [detectFaceLandmarks] and asks for the next frame;
    the host calls it once per frame, with that frame's time.  An exception
    out of [detectFaceLandmarks] ends the loop: the next frame is not asked
    for. *)
Fixpoint run_frames (g : Globals) (times : list float) : option Globals :=
  match times with
  | [] => Some g
  | time :: later => g' ← detectFaceLandmarks g time; run_frames g' later
  end.

(** ** Starting up (main.js, lines 320-382) *)

(** A caught value: its [message], if it has one, and [String(e)]. *)
Record Thrown : Type := { message : option string; toString : string }.

(** [e.message || String(e)]: the empty string is falsy. *)
Definition message_of (e : Thrown) : string :=
  match message e with
  | Some m => if String.eqb m "" then toString e else m
  | None => toString e
  end.

(** The text the [catch] block of [runDemo] shows for a message. *)
Definition error_text (msg : string) : string :=
  if includes msg "Permission" || includes msg "NotAllowed"
     || includes msg "denied"
  then "Camera access denied. Please allow camera and refresh."
  else if includes msg "NotFound" || includes msg "DevicesNotFound"
  then "No camera found."
  else if includes msg "fetch" || includes msg "network"
          || includes msg "Load"
  then "Network error loading model. Check connection and try again."
  else "Error: " +:+ msg.

(** The same text without the test for ["DevicesNotFound"]. *)
Definition error_text_without_DevicesNotFound (msg : string) : string :=
  if includes msg "Permission" || includes msg "NotAllowed"
     || includes msg "denied"
  then "Camera access denied. Please allow camera and refresh."
  else if includes msg "NotFound"
  then "No camera found."
  else if includes msg "fetch" || includes msg "network"
          || includes msg "Load"
  then "Network error loading model. Check connection and try again."
  else "Error: " +:+ msg.

(** *** Creating the detector (lines 352-366) *)

Inductive Delegate : Type := GPU | CPU.

(** What the two awaited calls of one iteration do: [createFromModelPath]
    resolves to a detector or rejects, [setOptions] resolves or rejects. *)
Record Attempts : Type :=
  { createFromModelPath : Delegate -> Thrown + FaceLandmarker;
    setOptions : FaceLandmarker -> Delegate -> option Thrown }.

(** The outcome of the loop: the [faceLandmarker] handle, the delegates
    tried, the errors passed to [console.warn], and the error thrown out
    of the loop, if any. *)
Record InitOutcome : Type :=
  { handle : option FaceLandmarker;
    tried : list Delegate;
    warned : list Thrown;
    thrown : option Thrown }.

(** The body of the [try]: the handle is assigned as soon as the detector
    exists, before [setOptions] is awaited. *)
Definition try_delegate (env : Attempts) (delegate : Delegate)
    (handle : option FaceLandmarker)
    : option FaceLandmarker * option Thrown :=
  match createFromModelPath env delegate with
  | inl e => (handle, Some e)
  | inr detector => (Some detector, setOptions env detector delegate)
  end.

(** [for (const delegate of delegates) { try { ...; break; }
    catch (e) { if (delegate === "CPU") throw e; console.warn(...); } }] *)
Fixpoint for_each_delegate (env : Attempts) (delegates : list Delegate)
    (o : InitOutcome) : InitOutcome :=
  match delegates with
  | [] => o
  | delegate :: rest =>
      let '(handle', failure) := try_delegate env delegate (handle o) in
      match failure with
      | None =>
          {| handle := handle'; tried := tried o ++ [delegate];
             warned := warned o; thrown := None |}
      | Some e =>
          match delegate with
          | CPU =>
              {| handle := handle'; tried := tried o ++ [delegate];
                 warned := warned o; thrown := Some e |}
          | GPU =>
              for_each_delegate env rest
                {| handle := handle'; tried := tried o ++ [delegate];
                   warned := warned o ++ [e]; thrown := None |}
          end
      end
  end.

Definition create_detector (env : Attempts)
    (faceLandmarker : option FaceLandmarker) : InitOutcome :=
  for_each_delegate env [GPU; CPU]
    {| handle := faceLandmarker; tried := []; warned := []; thrown := None |}.

(** *** Definitions used to state the further properties *)

(** The sign of a binary64 value, [None] for NaN. *)
Definition sf_sign (x : spec_float) : option bool :=
  match x with
  | S754_zero s | S754_infinity s | S754_finite s _ _ => Some s
  | S754_nan => None
  end.

(** The last entry of a score list with the given name. *)
Definition last_named (name : string) (scores : list Category)
    : option Category :=
  last (filter (fun e => categoryName e = name) scores).

(** What a frame never changes of a mesh, of the avatar and of the
    overlay: the dictionary and whether there is an influence array;
    whether the asset is loaded and the meshes in that respect; whether the
    overlay's mesh exists and its scale. *)
Definition mesh_shape (mesh : THREE.Mesh) : option (gmap string nat) * bool :=
  (THREE.morphTargetDictionary mesh,
   bool_decide (is_Some (THREE.morphTargetInfluences mesh))).

Definition rig_shape (av : Avatar.t)
    : bool * list (option (gmap string nat) * bool) :=
  (bool_decide (is_Some (Avatar.gltf av)),
   mesh_shape <$> Avatar.morphTargetMeshes av).

Definition overlay_shape (overlay : FaceOverlay.t) : bool * float :=
  (bool_decide (is_Some (FaceOverlay.mesh overlay)), FaceOverlay.scale overlay).

(** The local transform of the avatar's scene and of the overlay's mesh. *)
Definition avatar_matrix (g : Globals) : option THREE.Matrix4 :=
  av ← avatar g; gltf ← Avatar.gltf av; Some (THREE.matrix (scene gltf)).

Definition overlay_matrix (g : Globals) : option THREE.Matrix4 :=
  overlay ← faceOverlay g; mesh ← FaceOverlay.mesh overlay;
  Some (THREE.matrix mesh).

(** The running sample with a loaded overlay as well. *)
Definition running_with_overlay (r : FaceLandmarkerResult) : Globals :=
  {| faceLandmarker := Some (constant_detector r); video := Some 0%nat;
     avatar := Some loaded_avatar; faceOverlay := Some loaded_overlay |}.

(** A mesh that exposes both a dictionary and an influence array. *)
Definition exposes_both (mesh : THREE.Mesh) : Prop :=
  is_Some (THREE.morphTargetDictionary mesh)
  /\ is_Some (THREE.morphTargetInfluences mesh).

(** The objects of all the loaded assets, asset after asset, and the morph
    meshes of the asset loaded last. *)
Definition loaded_objects (assets : list AvatarLoad.GLTFAsset)
    : list AvatarLoad.ObjectData :=
  flat_map (fun gltf => AvatarLoad.preorder (AvatarLoad.graph gltf)) assets.

Definition meshes_of_last (assets : list AvatarLoad.GLTFAsset)
    : list THREE.Mesh :=
  match last assets with
  | Some gltf =>
      AvatarLoad.morph_meshes (AvatarLoad.preorder (AvatarLoad.graph gltf))
  | None => []
  end.





(** The influence array that the scene holds for an object. *)
Definition influences_in_scene (scene : list AvatarLoad.SceneObject)
    (id : nat) : option (option JsArray.t) :=
  (THREE.morphTargetInfluences ∘ AvatarLoad.morph)
    <$> head (filter (fun object => AvatarLoad.uuid object = id)
                     (flat_map AvatarLoad.preorder scene)).

(** *** Sample assets *)

Definition plain_object (id : nat) (bone : bool) : AvatarLoad.ObjectData :=
  {| AvatarLoad.uuid := id; AvatarLoad.isBone := bone;
     AvatarLoad.isMesh := false; AvatarLoad.frustumCulled := true;
     AvatarLoad.morph :=
       {| THREE.morphTargetDictionary := None;
          THREE.morphTargetInfluences := None |} |}.

Definition mesh_object (id : nat) (mesh : THREE.Mesh)
    : AvatarLoad.ObjectData :=
  {| AvatarLoad.uuid := id; AvatarLoad.isBone := false;
     AvatarLoad.isMesh := true; AvatarLoad.frustumCulled := true;
     AvatarLoad.morph := mesh |}.

(** A mesh without morph targets. *)
Definition rigid_mesh : THREE.Mesh :=
  {| THREE.morphTargetDictionary := None;
     THREE.morphTargetInfluences := None |}.

(** A first asset: a group holding a bone, a rigid mesh and the jaw mesh;
    a second asset: a group holding a bone and the jaw mesh. *)
Definition first_asset : AvatarLoad.GLTFAsset :=
  {| AvatarLoad.loaded := loaded_scene;
     AvatarLoad.graph :=
       AvatarLoad.Node (plain_object 10 false)
         [AvatarLoad.Node (plain_object 11 true)
            [AvatarLoad.Node (mesh_object 12 rigid_mesh) []];
          AvatarLoad.Node (mesh_object 13 jaw_mesh) []] |}.

Definition second_asset : AvatarLoad.GLTFAsset :=
  {| AvatarLoad.loaded := loaded_scene;
     AvatarLoad.graph :=
       AvatarLoad.Node (plain_object 20 false)
         [AvatarLoad.Node (plain_object 21 true) [];
          AvatarLoad.Node (mesh_object 22 jaw_mesh) []] |}.

(** The scene before any asset: two lights. *)
Definition lights : list AvatarLoad.SceneObject :=
  [AvatarLoad.Node (plain_object 1 false) [];
   AvatarLoad.Node (plain_object 2 false) []].

(** What the [try] of one iteration ends with: the error it throws, if
    any. *)
Definition attempt_failure (env : Attempts) (delegate : Delegate)
    : option Thrown :=
  match createFromModelPath env delegate with
  | inl e => Some e
  | inr detector => setOptions env detector delegate
  end.

(** *** Sample start-ups *)

Definition gpu_error : Thrown :=
  {| message := Some "WebGL not supported";
     toString := "Error: WebGL not supported" |}.

Definition fetch_error : Thrown :=
  {| message := Some "Failed to fetch"; toString := "TypeError: Failed to fetch" |}.

(** The detector can be created each time; its options cannot be set for
    the GPU. *)
Definition gpu_unavailable : Attempts :=
  {| createFromModelPath := fun _ => inr (constant_detector pose_only);
     setOptions := fun _ delegate =>
       match delegate with GPU => Some gpu_error | CPU => None end |}.

(** The first creation succeeds and its options fail; the second creation
    fails. *)
Definition network_lost : Attempts :=
  {| createFromModelPath := fun delegate =>
       match delegate with
       | GPU => inr (constant_detector pose_only)
       | CPU => inl fetch_error
       end;
     setOptions := fun _ _ => Some gpu_error |}.

(** * Properties *)

(** ** Binary64 facts: products of non-negative numbers, and [Math.min] *)

Section Binary64.

Local Open Scope float_scope.

Lemma shr_1_nonneg mrs : (0 <= shr_m mrs)%Z -> (0 <= shr_m (shr_1 mrs))%Z.
Proof.
  destruct mrs as [m r s]; simpl.
  destruct m as [|[p|p|]|[p|p|]]; simpl; lia.
Qed.

Lemma iter_shr_1_nonneg p : forall mrs,
  (0 <= shr_m mrs)%Z -> (0 <= shr_m (SpecFloat.iter_pos shr_1 p mrs))%Z.
Proof.
  induction p as [p IH|p IH|]; intros mrs H; simpl.
  - apply IH, IH, shr_1_nonneg, H.
  - apply IH, IH, H.
  - apply shr_1_nonneg, H.
Qed.

Lemma shr_fexp_nonneg m e l :
  (0 <= m)%Z -> (0 <= shr_m (shr_fexp prec emax m e l).1)%Z.
Proof.
  intros H. unfold shr_fexp, shr.
  assert (H0 : (0 <= shr_m (shr_record_of_loc m l))%Z)
    by (destruct l as [|[]]; exact H).
  destruct (_ - _)%Z; simpl; auto using iter_shr_1_nonneg.
Qed.

Lemma round_nearest_even_nonneg m l :
  (0 <= m)%Z -> (0 <= round_nearest_even m l)%Z.
Proof.
  intros H. destruct l as [|[]]; simpl; try lia.
  destruct (Z.even m); lia.
Qed.

(** Rounding a non-negative mantissa with a positive sign never yields a
    NaN or a negative number. *)
Lemma binary_round_aux_nonneg m e l :
  (0 <= m)%Z -> sf_nonneg (binary_round_aux prec emax false m e l).
Proof.
  intros H. unfold binary_round_aux.
  pose proof (shr_fexp_nonneg m e l H) as H1.
  destruct (shr_fexp prec emax m e l) as [mrs' e']. simpl in H1.
  pose proof (shr_fexp_nonneg _ e' loc_Exact
                (round_nearest_even_nonneg _ (loc_of_shr_record mrs') H1)) as H2.
  destruct (shr_fexp prec emax _ e' loc_Exact) as [mrs'' e'']. simpl in H2.
  destruct (shr_m mrs''); simpl; try lia; auto.
  destruct (_ <=? _)%Z; reflexivity.
Qed.

Lemma SF64mul_nonneg_finite x m e :
  sf_nonneg x -> sf_nonneg (SF64mul x (S754_finite false m e)).
Proof.
  intros Hx. destruct x as [sx|sx| |sx mx ex]; simpl in *; subst; auto.
  apply binary_round_aux_nonneg. lia.
Qed.

Lemma leb_zero_nonneg x : (0 <=? x) = true <-> sf_nonneg (Prim2SF x).
Proof.
  rewrite FloatAxioms.leb_spec. change (Prim2SF 0) with (S754_zero false).
  destruct (Prim2SF x) as [s|[]| |[] m e]; simpl; unfold SFleb; simpl;
    intuition congruence.
Qed.

(** A non-negative score times a positive finite gain is non-negative. *)
Lemma mul_gain_nonneg r g m e :
  Prim2SF g = S754_finite false m e ->
  (0 <=? r) = true -> sf_nonneg (Prim2SF (r * g)).
Proof.
  intros Hg Hr. rewrite FloatAxioms.mul_spec, Hg.
  apply SF64mul_nonneg_finite, leb_zero_nonneg, Hr.
Qed.

Lemma SFcompare_antisym x y :
  SFcompare y x = CompOpp <$> SFcompare x y.
Proof.
  destruct x as [sx|sx| |sx mx ex], y as [sy|sy| |sy my ey]; simpl;
    try reflexivity;
    try (destruct sx; reflexivity); try (destruct sy; reflexivity);
    try (destruct sx, sy; reflexivity).
  destruct sx, sy; simpl; try reflexivity;
    rewrite (Z.compare_antisym ey ex); destruct (ey ?= ex)%Z; simpl;
    try reflexivity;
    rewrite (Pos.compare_cont_antisym mx my Eq); simpl;
    try rewrite CompOpp_involutive; reflexivity.
Qed.

Lemma nonneg_not_nan x : sf_nonneg (Prim2SF x) -> is_nan x = false.
Proof.
  intros H. unfold is_nan. rewrite FloatAxioms.eqb_spec. unfold SFeqb.
  destruct (Prim2SF x) as [s|s| |s m e]; simpl in *; subst;
    try contradiction; try reflexivity.
  rewrite Z.compare_refl, Pos.compare_cont_refl. reflexivity.
Qed.

(** [Math.min(1, x)] of a non-negative [x] lies in [[0,1]]. *)
Lemma Math_min_one_unit x :
  sf_nonneg (Prim2SF x) -> in_unit_interval (Math.min 1 x).
Proof.
  intros Hx. unfold in_unit_interval, Math.min.
  change (is_nan 1) with false. rewrite (nonneg_not_nan x Hx). simpl.
  destruct (1 <? x) eqn:H1x; [split; reflexivity|].
  assert (Hle : (x <=? 1) = true).
  { rewrite FloatAxioms.ltb_spec in H1x. rewrite FloatAxioms.leb_spec.
    unfold SFltb in H1x. unfold SFleb.
    rewrite (SFcompare_antisym (Prim2SF 1) (Prim2SF x)).
    destruct (SFcompare (Prim2SF 1) (Prim2SF x)) as [[]|] eqn:Hc;
      simpl; try reflexivity; try discriminate.
    exfalso. revert Hc.
    change (Prim2SF 1) with (S754_finite false 4503599627370496 (-52)).
    destruct (Prim2SF x) as [s|s| |s m e]; simpl in *; subst;
      try contradiction; discriminate. }
  assert (H0 : (0 <=? x) = true) by (apply leb_zero_nonneg, Hx).
  destruct (x <? 1); [split; assumption|].
  change (get_sign 1) with false. simpl. split; assumption.
Qed.

End Binary64.

(** ** Maps and arrays *)

Section JsMapFacts.

Context {V : Type}.
Implicit Types (m : JsMap.t V) (k : string) (v : V).

Lemma JsMap_get_set_eq m k v : JsMap.get k (JsMap.set k v m) = Some v.
Proof.
  induction m as [|[k' v'] m IH]; simpl.
  - rewrite String.eqb_refl. reflexivity.
  - destruct (String.eqb k' k) eqn:E; simpl; rewrite E; auto.
Qed.

Lemma JsMap_get_set_ne m k k' v :
  k <> k' -> JsMap.get k' (JsMap.set k v m) = JsMap.get k' m.
Proof.
  intros Hne. induction m as [|[k0 v0] m IH]; simpl.
  - destruct (String.eqb_spec k k'); [contradiction|reflexivity].
  - destruct (String.eqb_spec k0 k) as [->|Hk]; simpl.
    + destruct (String.eqb_spec k k'); [contradiction|reflexivity].
    + destruct (String.eqb k0 k'); auto.
Qed.

Lemma JsMap_get_None m k : JsMap.get k m = None <-> k ∉ JsMap.keys m.
Proof.
  unfold JsMap.keys. induction m as [|[k0 v0] m IH]; simpl.
  - split; [intros _; apply not_elem_of_nil|reflexivity].
  - rewrite not_elem_of_cons.
    destruct (String.eqb_spec k0 k) as [->|Hk]; [|rewrite IH];
      intuition congruence.
Qed.

Lemma JsMap_get_cons_None m k k0 v0 :
  JsMap.get k ((k0, v0) :: m) = None <-> k0 <> k /\ JsMap.get k m = None.
Proof.
  simpl. destruct (String.eqb_spec k0 k); intuition congruence.
Qed.

(** [set] keeps the keys of a [Map] distinct. *)
Lemma JsMap_keys_set m k v :
  JsMap.keys (JsMap.set k v m)
  = if bool_decide (k ∈ JsMap.keys m) then JsMap.keys m
    else JsMap.keys m ++ [k].
Proof.
  unfold JsMap.keys. induction m as [|[k0 v0] m IH].
  - rewrite bool_decide_eq_false_2 by apply not_elem_of_nil. reflexivity.
  - cbn [JsMap.set]. destruct (String.eqb_spec k0 k) as [->|Hk].
    + rewrite bool_decide_eq_true_2 by apply list_elem_of_here. reflexivity.
    + rewrite !fmap_cons, IH. cbn [fst].
      destruct (bool_decide (k ∈ m.*1)) eqn:E.
      * apply bool_decide_eq_true_1 in E.
        rewrite bool_decide_eq_true_2 by (apply list_elem_of_further, E).
        reflexivity.
      * apply bool_decide_eq_false_1 in E.
        rewrite bool_decide_eq_false_2; [reflexivity|].
        rewrite not_elem_of_cons. split; [congruence|exact E].
Qed.

Lemma JsMap_set_NoDup m k v :
  NoDup (JsMap.keys m) -> NoDup (JsMap.keys (JsMap.set k v m)).
Proof.
  intros H. rewrite JsMap_keys_set. case_bool_decide as E; [exact H|].
  apply NoDup_app. split; [exact H|]. split.
  - intros x Hx Hx'. apply list_elem_of_singleton in Hx'. subst. auto.
  - apply NoDup_singleton.
Qed.

End JsMapFacts.

Section JsArrayFacts.

Implicit Types (a : JsArray.t) (i j : nat) (v : float).

Lemma JsArray_get_set_eq a i v : JsArray.get (JsArray.set a i v) i = Some v.
Proof.
  unfold JsArray.get, JsArray.set. case_decide as Hi.
  - rewrite list_lookup_insert_eq by exact Hi. reflexivity.
  - rewrite lookup_app_r by lia.
    rewrite lookup_app_r by (rewrite length_replicate; lia).
    rewrite length_replicate, Nat.sub_diag. reflexivity.
Qed.

Lemma JsArray_get_set_ne a i j v :
  i <> j -> JsArray.get (JsArray.set a i v) j = JsArray.get a j.
Proof.
  intros Hne. unfold JsArray.get, JsArray.set. case_decide as Hi.
  - rewrite list_lookup_insert_ne by exact Hne. reflexivity.
  - destruct (decide (j < length a)) as [Hj|Hj].
    + rewrite lookup_app_l by exact Hj. reflexivity.
    + rewrite (lookup_ge_None_2 a j) by lia.
      rewrite lookup_app_r by lia.
      destruct (decide (j - length a < i - length a)) as [Hlt|Hge].
      * rewrite lookup_app_l by (rewrite length_replicate; exact Hlt).
        rewrite lookup_replicate_2 by exact Hlt. reflexivity.
      * rewrite lookup_app_r by (rewrite length_replicate; lia).
        rewrite length_replicate.
        rewrite lookup_ge_None_2; [reflexivity|simpl; lia].
Qed.

End JsArrayFacts.

(** ** The loop over the categories *)

Section ForEachCategory.

Variable body : Category -> JsMap.t float -> Category * JsMap.t float.
Variable after : Category -> Category.
Variable weight : Category -> float.

(** An iteration leaves the entry as [after] says and sets the entry's
    name to [weight]. *)
Hypothesis body_sets :
  forall c m, body c m = (after c, JsMap.set (categoryName c) (weight c) m).

Lemma for_each_entries cats m :
  (for_each_category body cats m).1 = after <$> cats.
Proof.
  revert m. induction cats as [|c cats IH]; intros m; simpl; [reflexivity|].
  rewrite body_sets. specialize (IH (JsMap.set (categoryName c) (weight c) m)).
  destruct (for_each_category body cats _) as [rest' m']. simpl in *.
  rewrite IH. reflexivity.
Qed.

Lemma for_each_get_other cats m name :
  name ∉ categoryName <$> cats ->
  JsMap.get name (for_each_category body cats m).2 = JsMap.get name m.
Proof.
  revert m. induction cats as [|c cats IH]; intros m Hn; simpl; [reflexivity|].
  rewrite fmap_cons in Hn. apply not_elem_of_cons in Hn as [Hc Hn].
  rewrite body_sets.
  specialize (IH (JsMap.set (categoryName c) (weight c) m) Hn).
  destruct (for_each_category body cats _) as [rest' m']. simpl in *.
  rewrite IH. apply JsMap_get_set_ne. congruence.
Qed.

Lemma for_each_get cats m e :
  NoDup (categoryName <$> cats) -> e ∈ cats ->
  JsMap.get (categoryName e) (for_each_category body cats m).2
  = Some (weight e).
Proof.
  revert m. induction cats as [|c cats IH]; intros m Hnd He.
  - apply elem_of_nil in He. contradiction.
  - rewrite fmap_cons in Hnd. apply NoDup_cons in Hnd as [Hc Hnd].
    simpl. rewrite body_sets.
    apply elem_of_cons in He as [->|He].
    + pose proof (for_each_get_other cats
                    (JsMap.set (categoryName c) (weight c) m) _ Hc) as H.
      destruct (for_each_category body cats _) as [rest' m']. simpl in *.
      rewrite H. apply JsMap_get_set_eq.
    + specialize (IH (JsMap.set (categoryName c) (weight c) m) Hnd He).
      destruct (for_each_category body cats _) as [rest' m']. exact IH.
Qed.

Lemma for_each_keys_NoDup cats m :
  NoDup (JsMap.keys m) ->
  NoDup (JsMap.keys (for_each_category body cats m).2).
Proof.
  revert m. induction cats as [|c cats IH]; intros m Hm; simpl; [exact Hm|].
  rewrite body_sets.
  specialize (IH _ (JsMap_set_NoDup m (categoryName c) (weight c) Hm)).
  destruct (for_each_category body cats _) as [rest' m']. exact IH.
Qed.

End ForEachCategory.

Lemma retarget_body_sets c m :
  retarget_body c m = (id c, JsMap.set (categoryName c) (weight_of c) m).
Proof. reflexivity. Qed.

Lemma legacy_boosted_switch name :
  legacy_boosted name
  = (String.eqb name "browOuterUpLeft" || String.eqb name "browOuterUpRight"
     || String.eqb name "eyeBlinkLeft" || String.eqb name "eyeBlinkRight").
Proof.
  unfold legacy_boosted.
  destruct (String.eqb_spec name "browOuterUpLeft") as [->|H1]; [reflexivity|].
  destruct (String.eqb_spec name "browOuterUpRight") as [->|H2]; [reflexivity|].
  destruct (String.eqb_spec name "eyeBlinkLeft") as [->|H3]; [reflexivity|].
  destruct (String.eqb_spec name "eyeBlinkRight") as [->|H4]; [reflexivity|].
  apply bool_decide_eq_false_2. rewrite !elem_of_cons, elem_of_nil. tauto.
Qed.

Lemma legacy_entry_name e : categoryName (legacy_entry e) = categoryName e.
Proof. unfold legacy_entry. destruct (legacy_boosted _); reflexivity. Qed.

Lemma legacy_retarget_body_sets c m :
  Legacy.retarget_body c m
  = (legacy_entry c,
     JsMap.set (categoryName c) (score (legacy_entry c)) m).
Proof.
  unfold Legacy.retarget_body, legacy_entry.
  rewrite <- legacy_boosted_switch.
  destruct (legacy_boosted (categoryName c)); reflexivity.
Qed.

(** Every gain of the table is a positive finite number. *)
Lemma select_gain_finite name :
  exists m e, Prim2SF (select_gain name) = S754_finite false m e.
Proof.
  unfold select_gain.
  repeat match goal with |- context [if ?b then _ else _] => destruct b end;
    eexists _, _; lazy; reflexivity.
Qed.

Lemma weight_of_unit e :
  (0 <=? score e)%float = true -> in_unit_interval (weight_of e).
Proof.
  intros H. destruct (select_gain_finite (categoryName e)) as (m & ex & Hg).
  apply Math_min_one_unit. eapply mul_gain_nonneg; eassumption.
Qed.

(** The map [retarget] returns has distinct keys, as a [Map] must. *)
Lemma retarget_keys_NoDup blendshapes input' coefsMap :
  retarget blendshapes = Some (input', coefsMap) ->
  NoDup (JsMap.keys coefsMap).
Proof.
  destruct blendshapes as [|first others]; [discriminate|]. simpl.
  pose proof (for_each_keys_NoDup _ _ _ retarget_body_sets
                (categories first) JsMap.empty (NoDup_nil_2)) as H.
  destruct (for_each_category retarget_body _ _) as [c' m'].
  intros [= <- <-]. exact H.
Qed.

(** ** The retargeter *)

(** C1.  For score lists with distinct names, the gain-table [retarget]
    (lines 242-258) gives every entry with name [n] and raw score [r] in
    [[0,1]] the weight [Math.min(1, r * gain(n))], and that weight lies in
    [[0,1]].  The earlier copy of [retarget] (lines 587-603) does not clamp:
    it gives the entry [r * 1.2] for the four boosted names and [r]
    itself otherwise. *)
Theorem retarget_weight_clamped
    (scores : list Category) (others : list Classifications) (e : Category) :
  NoDup (categoryName <$> scores) ->
  e ∈ scores ->
  in_unit_interval (score e) ->
  weight_from (retarget ({| categories := scores |} :: others)) (categoryName e)
    = Some (Math.min 1 (score e * select_gain (categoryName e)))
  /\ in_unit_interval (Math.min 1 (score e * select_gain (categoryName e)))
  /\ weight_from (Legacy.retarget ({| categories := scores |} :: others))
                 (categoryName e)
     = Some (if legacy_boosted (categoryName e)
             then (score e * 1.2)%float else score e).
Proof.
  intros Hnd He [H0 _]. split; [|split].
  - unfold weight_from, retarget. cbn [categories].
    pose proof (for_each_get _ _ _ retarget_body_sets scores JsMap.empty e
                  Hnd He) as H.
    destruct (for_each_category retarget_body scores _) as [c' m'].
    exact H.
  - apply (weight_of_unit e H0).
  - unfold weight_from, Legacy.retarget. cbn [categories].
    pose proof (for_each_get _ _ _ legacy_retarget_body_sets scores
                  JsMap.empty e Hnd He) as H.
    destruct (for_each_category Legacy.retarget_body scores _) as [c' m'].
    simpl in *. rewrite H. unfold legacy_entry.
    destruct (legacy_boosted (categoryName e)); reflexivity.
Qed.

Lemma retarget_weight_clamped_witness :
  weight_from (retarget
                 (one_face [entry "jawOpen" 0.25; entry "eyeBlinkLeft" 0.9]))
              "eyeBlinkLeft" = Some 1%float
  /\ weight_from (Legacy.retarget
                    (one_face [entry "jawOpen" 0.25; entry "eyeBlinkLeft" 0.9]))
                 "eyeBlinkLeft" = Some (0.9 * 1.2)%float.
Proof.
  assert (Hnd : NoDup (categoryName <$>
                         [entry "jawOpen" 0.25; entry "eyeBlinkLeft" 0.9])).
  { apply NoDup_cons. split.
    - rewrite list_elem_of_singleton. discriminate.
    - apply NoDup_singleton. }
  assert (He : entry "eyeBlinkLeft" 0.9
               ∈ [entry "jawOpen" 0.25; entry "eyeBlinkLeft" 0.9]).
  { apply list_elem_of_further, list_elem_of_here. }
  assert (Hu : in_unit_interval (score (entry "eyeBlinkLeft" 0.9))).
  { split; reflexivity. }
  destruct (retarget_weight_clamped _ [] _ Hnd He Hu) as (H1 & _ & H2).
  split; [exact H1|exact H2].
Defined.

(** The earlier copy gives ["eyeBlinkLeft"] with raw score 0.9 the weight
    [0.9 * 1.2], which is above 1 and is not [Math.min(1, 0.9 * gain)]. *)
Lemma legacy_retarget_exceeds_one :
  in_unit_interval 0.9
  /\ weight_from (Legacy.retarget (one_face [entry "eyeBlinkLeft" 0.9]))
                 "eyeBlinkLeft" = Some (0.9 * 1.2)%float
  /\ (0.9 * 1.2 <=? 1)%float = false
  /\ (0.9 * 1.2)%float <> Math.min 1 (0.9 * select_gain "eyeBlinkLeft").
Proof.
  split; [split; reflexivity|].
  split; [reflexivity|]. split; [reflexivity|].
  vm_compute. discriminate.
Qed.

(** C2.  For every name, the gain is that of the first category of the
    ordered list mouth, jaw, tongue, eye, brow whose lower-case spelling or
    whose spelling with a capital first letter occurs in the name, and the
    default 1 when there is none. *)
Theorem select_gain_first_match (name : string) :
  select_gain name = two_spellings_gain name.
Proof.
  unfold two_spellings_gain, first_match, gain_categories, select_gain.
  cbn [List.find fst].
  change (capitalized "mouth") with "Mouth".
  change (capitalized "jaw") with "Jaw".
  change (capitalized "tongue") with "Tongue".
  change (capitalized "eye") with "Eye".
  change (capitalized "brow") with "Brow".
  repeat match goal with
         | |- context [if ?b || ?c then _ else _] => destruct (b || c)
         end; reflexivity.
Qed.

(** Names as the detector spells them. *)
Example select_gain_detector_names :
  select_gain "mouthSmileLeft" = 2.2%float
  /\ select_gain "jawOpen" = 2.2%float
  /\ select_gain "tongueOut" = 2.5%float
  /\ select_gain "eyeBlinkLeft" = 1.2%float
  /\ select_gain "browInnerUp" = 1.2%float
  /\ select_gain "cheekPuff" = 1%float
  /\ select_gain "tongueMouth" = 2.2%float.
Proof. repeat split; reflexivity. Qed.

(** The match is not case-insensitive: ["MOUTH"] gets the default gain,
    where a case-insensitive match gives the mouth gain. *)
Lemma select_gain_case_sensitive :
  select_gain "MOUTH" = BLENDSHAPE_GAIN.default
  /\ case_insensitive_gain "MOUTH" = BLENDSHAPE_GAIN.mouth
  /\ select_gain "MOUTH" <> case_insensitive_gain "MOUTH".
Proof.
  split; [reflexivity|]. split; [reflexivity|].
  vm_compute. discriminate.
Qed.

(** C3.  The three sample entries: ["mouthSmileLeft"] at 0.9 gives 1,
    ["eyeBlinkLeft"] at 0.5 gives 0.6, ["unknownCategory"] at 0.3 gives
    0.3. *)
Theorem retarget_examples :
  weight_from (retarget (one_face [entry "mouthSmileLeft" 0.9]))
              "mouthSmileLeft" = Some 1%float
  /\ weight_from (retarget (one_face [entry "eyeBlinkLeft" 0.5]))
                 "eyeBlinkLeft" = Some 0.6%float
  /\ weight_from (retarget (one_face [entry "unknownCategory" 0.3]))
                 "unknownCategory" = Some 0.3%float.
Proof. repeat split; vm_compute; reflexivity. Qed.

(** C7.  The gain-table [retarget] leaves its argument as it received it:
    it throws on an empty array and otherwise returns with the array and
    every entry, raw scores included, unchanged.  The earlier copy writes
    to its argument: it leaves the first face's entries as [legacy_entry]
    gives them, the four boosted names with their raw score multiplied by
    1.2. *)
Theorem retarget_input_effect (blendshapes : list Classifications) :
  input_after (retarget blendshapes)
    = match blendshapes with
      | [] => None
      | _ :: _ => Some blendshapes
      end
  /\ input_after (Legacy.retarget blendshapes)
     = match blendshapes with
       | [] => None
       | first :: others =>
           Some ({| categories := legacy_entry <$> categories first |}
                 :: others)
       end.
Proof.
  destruct blendshapes as [|[scores] others]; [split; reflexivity|].
  unfold input_after, retarget, Legacy.retarget. cbn [categories].
  pose proof (for_each_entries _ _ _ retarget_body_sets scores JsMap.empty)
    as H1.
  pose proof (for_each_entries _ _ _ legacy_retarget_body_sets scores
                JsMap.empty) as H2.
  destruct (for_each_category retarget_body scores _) as [c1 m1].
  destruct (for_each_category Legacy.retarget_body scores _) as [c2 m2].
  simpl in *. subst. rewrite list_fmap_id. split; reflexivity.
Qed.

(** The earlier copy changes the raw score of its argument's entry
    ["eyeBlinkLeft"] from 0.5 to 0.6. *)
Lemma legacy_retarget_mutates_input :
  input_after (Legacy.retarget (one_face [entry "eyeBlinkLeft" 0.5]))
    = Some (one_face [entry "eyeBlinkLeft" 0.6])
  /\ input_after (Legacy.retarget (one_face [entry "eyeBlinkLeft" 0.5]))
     <> Some (one_face [entry "eyeBlinkLeft" 0.5]).
Proof.
  split; [reflexivity|]. vm_compute. discriminate.
Qed.

(** ** The rig adapter: morph-target influences *)

Section WriteInfluences.

Variable dictionary : gmap string nat.
Implicit Types (weights : JsMap.t float) (influences : JsArray.t).

Lemma write_influences_cons n v weights influences :
  Avatar.write_influences dictionary ((n, v) :: weights) influences
  = Avatar.write_influences dictionary weights
      (if bool_decide (n ∈ dom dictionary) then
         match dictionary !! n with
         | Some idx => JsArray.set influences idx v
         | None => influences
         end
       else influences).
Proof. reflexivity. Qed.

(** A slot none of whose names is a key of the map keeps its value. *)
Lemma write_influences_other weights influences slot :
  (forall name, dictionary !! name = Some slot ->
                JsMap.get name weights = None) ->
  JsArray.get (Avatar.write_influences dictionary weights influences) slot
  = JsArray.get influences slot.
Proof.
  revert influences.
  induction weights as [|[n v] weights IH]; intros influences H;
    [reflexivity|].
  rewrite write_influences_cons, IH.
  - case_bool_decide; [|reflexivity].
    destruct (dictionary !! n) as [idx|] eqn:E; [|reflexivity].
    apply JsArray_get_set_ne. intros ->.
    specialize (H n E). apply JsMap_get_cons_None in H. tauto.
  - intros name Hname. apply H, JsMap_get_cons_None in Hname. tauto.
Qed.

(** Whatever the dictionary and the map: a slot ends with the weight of
    the last entry written to it, or keeps its value. *)
Lemma write_influences_last_writer weights influences slot :
  JsArray.get (Avatar.write_influences dictionary weights influences) slot
  = match last_writer dictionary weights slot with
    | Some weight => Some weight
    | None => JsArray.get influences slot
    end.
Proof.
  unfold last_writer. revert influences.
  induction weights as [|[n v] weights IH]; intros influences;
    [reflexivity|].
  rewrite write_influences_cons, IH, filter_cons. cbn [fst].
  case_decide as Hn.
  - rewrite bool_decide_eq_true_2 by (apply elem_of_dom; eauto).
    rewrite Hn, last_cons.
    destruct (last (filter _ weights)) as [[n' v']|]; simpl;
      [reflexivity|apply JsArray_get_set_eq].
  - destruct (last (filter _ weights)) as [[n' v']|]; simpl; [reflexivity|].
    case_bool_decide; [|reflexivity].
    destruct (dictionary !! n) as [idx|] eqn:E; [|reflexivity].
    apply JsArray_get_set_ne. congruence.
Qed.

(** The slot of a name that is a key of the map ends with the mapped
    weight. *)
Lemma write_influences_named weights influences name slot weight :
  injective_dictionary dictionary ->
  NoDup (JsMap.keys weights) ->
  dictionary !! name = Some slot ->
  JsMap.get name weights = Some weight ->
  JsArray.get (Avatar.write_influences dictionary weights influences) slot
  = Some weight.
Proof.
  intros Hinj. revert influences.
  induction weights as [|[n v] weights IH]; intros influences Hnd Hd Hw;
    [discriminate|].
  unfold JsMap.keys in Hnd. rewrite fmap_cons in Hnd.
  apply NoDup_cons in Hnd as [Hn Hnd]. cbn [fst] in Hn.
  rewrite write_influences_cons.
  simpl in Hw. destruct (String.eqb_spec n name) as [->|Hne].
  - injection Hw as ->.
    rewrite bool_decide_eq_true_2 by (apply elem_of_dom; eauto).
    rewrite Hd, write_influences_other; [apply JsArray_get_set_eq|].
    intros name' Hname'. rewrite (Hinj _ _ _ Hname' Hd).
    apply JsMap_get_None, Hn.
  - apply IH; assumption.
Qed.

End WriteInfluences.

(** C4.  [updateBlendshapes] keeps the mesh list and every dictionary, for
    every mesh list and every weight map.  In a mesh that has a dictionary
    and an influence array, a slot to which the dictionary sends a key of
    the map ends with the weight of the last such key in the order of the
    map, and every slot none of whose names is a key of the map keeps its
    value; keys of the map that the dictionary lacks are passed over.
    When the dictionary gives different names different slots, the slot of
    a name ends with the weight mapped to that name.  A mesh without a
    dictionary or without an influence array is left as it is. *)
Theorem updateBlendshapes_writes_named_slots
    (this : Avatar.t) (weights : JsMap.t float) :
  Avatar.gltf (Avatar.updateBlendshapes this weights) = Avatar.gltf this
  /\ length (Avatar.morphTargetMeshes (Avatar.updateBlendshapes this weights))
     = length (Avatar.morphTargetMeshes this)
  /\ forall i mesh,
       Avatar.morphTargetMeshes this !! i = Some mesh ->
       exists mesh',
         Avatar.morphTargetMeshes (Avatar.updateBlendshapes this weights) !! i
           = Some mesh'
         /\ THREE.morphTargetDictionary mesh' = THREE.morphTargetDictionary mesh
         /\ match THREE.morphTargetDictionary mesh,
                  THREE.morphTargetInfluences mesh with
            | Some dictionary, Some influences =>
                exists influences',
                  THREE.morphTargetInfluences mesh' = Some influences'
                  /\ (forall slot,
                        JsArray.get influences' slot
                        = match last_writer dictionary weights slot with
                          | Some weight => Some weight
                          | None => JsArray.get influences slot
                          end)
                  /\ (forall slot,
                        (forall name, dictionary !! name = Some slot ->
                                      JsMap.get name weights = None) ->
                        JsArray.get influences' slot
                        = JsArray.get influences slot)
                  /\ (injective_dictionary dictionary ->
                      NoDup (JsMap.keys weights) ->
                      forall name slot weight,
                        dictionary !! name = Some slot ->
                        JsMap.get name weights = Some weight ->
                        JsArray.get influences' slot = Some weight)
            | _, _ => mesh' = mesh
            end.
Proof.
  split; [reflexivity|]. split.
  { simpl. apply length_fmap. }
  intros i mesh Hi. exists (Avatar.update_mesh weights mesh). split.
  { simpl. rewrite list_lookup_fmap, Hi. reflexivity. }
  unfold Avatar.update_mesh.
  destruct (THREE.morphTargetDictionary mesh) as [dictionary|] eqn:Ed;
    [|split; [exact Ed|reflexivity]].
  destruct (THREE.morphTargetInfluences mesh) as [influences|] eqn:Ei;
    [|split; [exact Ed|reflexivity]].
  split; [reflexivity|].
  eexists. split; [reflexivity|]. split; [|split].
  - intros slot. apply write_influences_last_writer.
  - intros slot H. apply write_influences_other, H.
  - intros Hinj Hnd name slot weight Hd Hw.
    apply (write_influences_named dictionary weights influences name);
      auto.
Qed.

(** On a mesh whose index holds only ["jawOpen"], the weights
    [{"jawOpen": 0.7, "eyeBlinkLeft": 0.4}] set the ["jawOpen"] slot to 0.7
    and leave the other slot at 0.2. *)
Lemma updateBlendshapes_writes_named_slots_witness :
  exists mesh' influences',
    Avatar.morphTargetMeshes
      (Avatar.updateBlendshapes loaded_avatar sample_weights) !! 0%nat
      = Some mesh'
    /\ THREE.morphTargetInfluences mesh' = Some influences'
    /\ JsArray.get influences' 0 = Some 0.7%float
    /\ JsArray.get influences' 1 = Some 0.2%float.
Proof.
  assert (Hnd : NoDup (JsMap.keys sample_weights)).
  { apply NoDup_cons. split.
    - rewrite list_elem_of_singleton. discriminate.
    - apply NoDup_singleton. }
  assert (Hinj : injective_dictionary {[ "jawOpen" := 0%nat ]}).
  { intros n1 n2 slot H1 H2.
    apply lookup_singleton_Some in H1 as [<- _].
    apply lookup_singleton_Some in H2 as [<- _]. reflexivity. }
  destruct (updateBlendshapes_writes_named_slots loaded_avatar sample_weights)
    as (_ & _ & H).
  destruct (H 0%nat jaw_mesh eq_refl) as (mesh' & Hm & _ & Hslots).
  cbn [jaw_mesh THREE.morphTargetDictionary THREE.morphTargetInfluences]
    in Hslots.
  destruct Hslots as (influences' & Hi & _ & Hother & Hnamed).
  exists mesh', influences'. split; [exact Hm|]. split; [exact Hi|]. split.
  - apply (Hnamed Hinj Hnd "jawOpen" 0%nat);
      [apply lookup_singleton_eq|reflexivity].
  - rewrite (Hother 1%nat); [reflexivity|].
    intros name Hname. apply lookup_singleton_Some in Hname as [_ Hname].
    discriminate.
Defined.

(** A dictionary that gives ["jawOpen"] and ["mouthOpen"] the same slot:
    ["jawOpen"] is a name of the dictionary and a key of the map, with the
    weight 0.3, and its slot ends at 0.6, the weight of ["mouthOpen"],
    which the map holds later. *)
Lemma updateBlendshapes_shared_slot_last_key_wins :
  THREE.morphTargetDictionary shared_slot_mesh
    ≫= (fun dictionary => dictionary !! "jawOpen") = Some 0%nat
  /\ JsMap.get "jawOpen" shared_slot_weights = Some 0.3%float
  /\ NoDup (JsMap.keys shared_slot_weights)
  /\ THREE.morphTargetInfluences
       <$> Avatar.morphTargetMeshes
             (Avatar.updateBlendshapes shared_slot_avatar shared_slot_weights)
     = [Some [Some 0.6%float]]
  /\ 0.6%float <> 0.3%float.
Proof.
  split; [vm_compute; reflexivity|]. split; [reflexivity|]. split.
  { apply (bool_decide_unpack _). vm_compute. exact I. }
  split; [vm_compute; reflexivity|discriminate].
Qed.

(** ** The rig adapter: the pose *)

(** C5.  Before the asset has loaded ([gltf] is absent), [applyMatrix]
    returns with the avatar and the caller's matrix as they were, for every
    matrix and every options object. *)
Theorem applyMatrix_not_loaded_noop
    (this : Avatar.t) (matrix : THREE.Matrix4)
    (options : MatrixRetargetOptions) :
  Avatar.gltf this = None ->
  Avatar.applyMatrix this matrix options = (this, matrix).
Proof. intros H. unfold Avatar.applyMatrix. rewrite H. reflexivity. Qed.

Lemma applyMatrix_not_loaded_noop_witness :
  Avatar.applyMatrix unloaded_avatar sample_pose (with_scale 40)
  = (unloaded_avatar, sample_pose).
Proof. apply applyMatrix_not_loaded_noop. reflexivity. Defined.

(** C6.  On a loaded avatar, [applyMatrix] switches [matrixAutoUpdate] off
    and overwrites the scene's matrix with the pose scaled uniformly by the
    given scale; with no scale in the options the scale is 1.  The meshes
    are not touched. *)
Theorem applyMatrix_loaded_transform
    (this : Avatar.t) (g : GLTF) (matrix : THREE.Matrix4) :
  Avatar.gltf this = Some g ->
  (forall s,
      (Avatar.applyMatrix this matrix (with_scale s)).1
      = {| Avatar.gltf :=
             Some {| scene := {| THREE.matrix := THREE.scale matrix (uniform s);
                                 THREE.matrixAutoUpdate := false |} |};
           Avatar.morphTargetMeshes := Avatar.morphTargetMeshes this |})
  /\ (Avatar.applyMatrix this matrix no_options).1
     = {| Avatar.gltf :=
            Some {| scene := {| THREE.matrix := THREE.scale matrix (uniform 1);
                                THREE.matrixAutoUpdate := false |} |};
          Avatar.morphTargetMeshes := Avatar.morphTargetMeshes this |}.
Proof.
  intros H. unfold Avatar.applyMatrix. rewrite H. split; reflexivity.
Qed.

Lemma applyMatrix_loaded_transform_witness :
  (Avatar.applyMatrix loaded_avatar sample_pose (with_scale 40)).1
  = {| Avatar.gltf :=
         Some {| scene := {| THREE.matrix := THREE.scale sample_pose (uniform 40);
                             THREE.matrixAutoUpdate := false |} |};
       Avatar.morphTargetMeshes := [jaw_mesh] |}.
Proof.
  exact (proj1 (applyMatrix_loaded_transform loaded_avatar loaded_scene
                  sample_pose eq_refl) 40%float).
Defined.

(** With no scale supplied the scene's matrix becomes the pose itself, not
    the pose scaled by 40. *)
Lemma applyMatrix_default_scale_not_40 :
  (THREE.matrix ∘ scene <$>
     Avatar.gltf (Avatar.applyMatrix loaded_avatar sample_pose no_options).1)
  = Some sample_pose
  /\ sample_pose <> THREE.scale sample_pose (uniform 40).
Proof. split; [reflexivity|]. vm_compute. discriminate. Qed.

(** C10.  On a loaded avatar, [Avatar.applyMatrix] leaves the scaled
    matrix in the caller's matrix object; with [gltf] absent it leaves the
    caller's matrix as it was.  So the caller's matrix differs afterwards
    exactly when the avatar is loaded and the scaling changes an element.
    [FaceOverlay.applyMatrix] scales a clone and always leaves the caller's
    matrix as it was. *)
Theorem applyMatrix_argument_effect
    (this : Avatar.t) (overlay : FaceOverlay.t) (matrix : THREE.Matrix4)
    (options : MatrixRetargetOptions) :
  (forall g, Avatar.gltf this = Some g ->
             (Avatar.applyMatrix this matrix options).2
             = THREE.scale matrix (uniform (default 1%float (opt_scale options))))
  /\ (Avatar.gltf this = None ->
      (Avatar.applyMatrix this matrix options).2 = matrix)
  /\ ((Avatar.applyMatrix this matrix options).2 <> matrix
      <-> Avatar.gltf this <> None
          /\ THREE.scale matrix (uniform (default 1%float (opt_scale options)))
             <> matrix)
  /\ (FaceOverlay.applyMatrix overlay matrix options).2 = matrix.
Proof.
  unfold Avatar.applyMatrix, FaceOverlay.applyMatrix.
  destruct (Avatar.gltf this) as [g|]; simpl.
  - split; [reflexivity|]. split; [discriminate|]. split.
    + split; [intros H; split; [discriminate|exact H]|tauto].
    + destruct (FaceOverlay.mesh overlay); reflexivity.
  - split; [discriminate|]. split; [reflexivity|]. split.
    + split; [congruence|tauto].
    + destruct (FaceOverlay.mesh overlay); reflexivity.
Qed.

(** On the loaded sample avatar with scale 40 the caller's matrix ends
    scaled and differs from the pose supplied; the overlay leaves it
    alone. *)
Lemma applyMatrix_argument_effect_witness :
  (Avatar.applyMatrix loaded_avatar sample_pose (with_scale 40)).2
    = THREE.scale sample_pose (uniform 40)
  /\ (Avatar.applyMatrix loaded_avatar sample_pose (with_scale 40)).2
     <> sample_pose
  /\ (FaceOverlay.applyMatrix loaded_overlay sample_pose (with_scale 40)).2
     = sample_pose.
Proof.
  destruct (applyMatrix_argument_effect loaded_avatar loaded_overlay
              sample_pose (with_scale 40)) as (Hscaled & _ & Hdiff & Hclone).
  split; [exact (Hscaled loaded_scene eq_refl)|]. split; [|exact Hclone].
  apply Hdiff. split; [discriminate|]. vm_compute. discriminate.
Defined.

(** With [gltf] absent and scale 40, the caller's matrix is the one
    supplied. *)
Lemma applyMatrix_argument_kept_when_not_loaded :
  (40 =? 1)%float = false
  /\ (Avatar.applyMatrix unloaded_avatar sample_pose (with_scale 40)).2
     = sample_pose.
Proof. split; reflexivity. Qed.

(** ** The per-frame path *)

Lemma update_mesh_empty mesh : Avatar.update_mesh JsMap.empty mesh = mesh.
Proof.
  unfold Avatar.update_mesh. destruct mesh as [[d|] [a|]]; reflexivity.
Qed.

Lemma updateBlendshapes_empty av :
  Avatar.updateBlendshapes av JsMap.empty = av.
Proof.
  unfold Avatar.updateBlendshapes. destruct av as [g meshes]. simpl.
  f_equal. induction meshes as [|mesh meshes IH]; [reflexivity|].
  rewrite fmap_cons, update_mesh_empty, IH. reflexivity.
Qed.

(** Without scores the guarded retargeting statement does nothing. *)
Lemma retarget_step_no_scores av blendshapes :
  no_scores blendshapes -> retarget_step av blendshapes = Some av.
Proof.
  intros [->|[->|[others ->]]]; try reflexivity.
  simpl. rewrite updateBlendshapes_empty. reflexivity.
Qed.

Lemma applyMatrix_meshes av matrix options :
  Avatar.morphTargetMeshes (Avatar.applyMatrix av matrix options).1
  = Avatar.morphTargetMeshes av.
Proof.
  unfold Avatar.applyMatrix. destruct (Avatar.gltf av); reflexivity.
Qed.

(** C8.  When the frame's score list is empty or absent, the guarded
    retargeting statement leaves the avatar as it is, any map [retarget]
    returns for such a list is empty, and [detectFaceLandmarks] returns
    without an exception and with every mesh's influence array as it
    was. *)
Theorem detectFaceLandmarks_no_scores_noop
    (g : Globals) (detector : FaceLandmarker) (v : HTMLVideoElement)
    (time : float) :
  faceLandmarker g = Some detector ->
  video g = Some v ->
  no_scores (faceBlendshapes (detectForVideo detector v time)) ->
  (forall av,
      retarget_step av (faceBlendshapes (detectForVideo detector v time))
      = Some av)
  /\ (forall blendshapes input' coefsMap,
        faceBlendshapes (detectForVideo detector v time) = Some blendshapes ->
        retarget blendshapes = Some (input', coefsMap) ->
        coefsMap = JsMap.empty)
  /\ exists g',
       detectFaceLandmarks g time = Some g'
       /\ influences_of g' = influences_of g.
Proof.
  intros Hd Hv Hs. split; [|split].
  - intros av. apply retarget_step_no_scores, Hs.
  - intros blendshapes input' coefsMap Hb.
    destruct Hs as [Hs|[Hs|[others Hs]]]; rewrite Hs in Hb;
      [discriminate| |]; injection Hb as <-; [discriminate|].
    intros [= _ <-]. reflexivity.
  - unfold detectFaceLandmarks. rewrite Hd, Hv.
    destruct (facialTransformationMatrixes (detectForVideo detector v time))
      as [[|first rest]|]; try (eexists; split; reflexivity).
    destruct (faceOverlay g) as [overlay|];
      [destruct (FaceOverlay.applyMatrix overlay _ _) as [overlay' matrix']|];
      (destruct (avatar g) as [av|] eqn:Ea;
       [|eexists; split; [reflexivity|];
         unfold influences_of; simpl; rewrite Ea; reflexivity]);
      match goal with
      | |- context [Avatar.applyMatrix av ?m ?o] =>
          pose proof (applyMatrix_meshes av m o) as Hm;
          destruct (Avatar.applyMatrix av m o) as [av' m'']
      end;
      rewrite (retarget_step_no_scores av' _ Hs); simpl;
      (eexists; split; [reflexivity|]);
      unfold influences_of; simpl; rewrite Ea; simpl in *;
      rewrite Hm; reflexivity.
Qed.

Lemma detectFaceLandmarks_no_scores_noop_witness :
  exists g',
    detectFaceLandmarks (running pose_only) 0 = Some g'
    /\ influences_of g' = influences_of (running pose_only).
Proof.
  refine (proj2 (proj2 (detectFaceLandmarks_no_scores_noop
                          (running pose_only) (constant_detector pose_only)
                          0%nat 0%float eq_refl eq_refl _))).
  right. left. reflexivity.
Defined.

(** C9.  When the detector reports no transformation matrix for the frame,
    [detectFaceLandmarks] returns with every handle as it was, whatever
    blendshapes it reports: no influence is written. *)
Theorem detectFaceLandmarks_no_pose_no_update
    (g : Globals) (detector : FaceLandmarker) (v : HTMLVideoElement)
    (time : float) :
  faceLandmarker g = Some detector ->
  video g = Some v ->
  no_pose (facialTransformationMatrixes (detectForVideo detector v time)) ->
  detectFaceLandmarks g time = Some g
  /\ influences_of <$> detectFaceLandmarks g time = Some (influences_of g).
Proof.
  intros Hd Hv Hp.
  assert (H : detectFaceLandmarks g time = Some g).
  { unfold detectFaceLandmarks. rewrite Hd, Hv.
    destruct Hp as [-> | ->]; reflexivity. }
  rewrite H. split; reflexivity.
Qed.

Lemma detectFaceLandmarks_no_pose_no_update_witness :
  detectFaceLandmarks (running scores_only) 0 = Some (running scores_only)
  /\ influences_of <$> detectFaceLandmarks (running scores_only) 0
     = Some (Some [Some [Some 0.1%float; Some 0.2%float]]).
Proof.
  refine (detectFaceLandmarks_no_pose_no_update
            (running scores_only) (constant_detector scores_only)
            0%nat 0%float eq_refl eq_refl _).
  right. reflexivity.
Defined.

(** The per-frame caller supplies the scale: the scene's matrix becomes the
    detected pose scaled by 40. *)
Example detectFaceLandmarks_scales_by_40 :
  (fun g' => THREE.matrix ∘ scene <$> (avatar g' ≫= Avatar.gltf))
    <$> detectFaceLandmarks (running pose_only) 0
  = Some (Some (THREE.scale sample_pose (uniform 40))).
Proof. reflexivity. Qed.

(** The earlier copy tests the blendshapes on their own: scores without a
    pose are written (["jawOpen"] is not one of its boosted names). *)
Example legacy_detectFaceLandmarks_scores_without_pose :
  influences_of <$> Legacy.detectFaceLandmarks (running scores_only) 0
  = Some (Some [Some [Some 0.5%float; Some 0.2%float]]).
Proof. vm_compute. reflexivity. Qed.

(** With both a pose and scores in the frame the influences are written:
    ["jawOpen"] at 0.5 drives slot 0 to [Math.min(1, 0.5 * 2.2)], which
    is 1. *)
Example detectFaceLandmarks_pose_and_scores :
  influences_of <$> detectFaceLandmarks (running pose_and_scores) 0
  = Some (Some [Some [Some 1%float; Some 0.2%float]]).
Proof. vm_compute. reflexivity. Qed.

(** * Further properties of the code *)

(** ** The retargeter on arbitrary scores *)

Section Binary64Signs.

Local Open Scope float_scope.

Lemma binary_round_aux_sign sx m e l :
  (0 <= m)%Z -> sf_sign (binary_round_aux prec emax sx m e l) = Some sx.
Proof.
  intros H. unfold binary_round_aux.
  pose proof (shr_fexp_nonneg m e l H) as H1.
  destruct (shr_fexp prec emax m e l) as [mrs' e']. simpl in H1.
  pose proof (shr_fexp_nonneg _ e' loc_Exact
                (round_nearest_even_nonneg _ (loc_of_shr_record mrs') H1))
    as H2.
  destruct (shr_fexp prec emax _ e' loc_Exact) as [mrs'' e'']. simpl in H2.
  destruct (shr_m mrs''); simpl; try lia; auto.
  destruct (_ <=? _)%Z; reflexivity.
Qed.

(** Multiplying by a positive finite number keeps the sign, and keeps a NaN
    a NaN. *)
Lemma SF64mul_sign x m e :
  sf_sign (SF64mul x (S754_finite false m e)) = sf_sign x.
Proof.
  destruct x as [sx|sx| |sx mx ex]; simpl;
    rewrite ?xorb_false_r; try reflexivity.
  apply binary_round_aux_sign. lia.
Qed.

Lemma is_nan_sign x : is_nan x = true <-> sf_sign (Prim2SF x) = None.
Proof.
  unfold is_nan. rewrite FloatAxioms.eqb_spec. unfold SFeqb.
  destruct (Prim2SF x) as [s|s| |s m e]; simpl.
  - split; discriminate.
  - destruct s; split; discriminate.
  - split; reflexivity.
  - destruct s; rewrite Z.compare_refl, Pos.compare_cont_refl;
      split; discriminate.
Qed.

Lemma is_nan_false_sign x :
  is_nan x = false <-> exists s, sf_sign (Prim2SF x) = Some s.
Proof.
  pose proof (is_nan_sign x) as H.
  destruct (is_nan x), (sf_sign (Prim2SF x)) as [s|]; split;
    try intros [s' Hs]; eauto; try discriminate.
  - destruct H as [H _]. specialize (H eq_refl). discriminate.
  - destruct H as [_ H]. specialize (H eq_refl). discriminate.
Qed.

Lemma mul_gain_sign r name :
  sf_sign (Prim2SF (r * select_gain name)) = sf_sign (Prim2SF r).
Proof.
  destruct (select_gain_finite name) as (m & e & Hg).
  rewrite FloatAxioms.mul_spec, Hg. apply SF64mul_sign.
Qed.

(** [Math.min(1, x)] of a number is a number, at most 1. *)
Lemma Math_min_one_le x :
  is_nan x = false ->
  is_nan (Math.min 1 x) = false /\ (Math.min 1 x <=? 1) = true.
Proof.
  intros Hx. unfold Math.min. change (is_nan 1) with false. rewrite Hx. simpl.
  destruct (1 <? x) eqn:H1x; [split; reflexivity|].
  assert (Hle : (x <=? 1) = true).
  { apply is_nan_false_sign in Hx as [s Hs].
    rewrite FloatAxioms.ltb_spec in H1x. rewrite FloatAxioms.leb_spec.
    unfold SFltb in H1x. unfold SFleb.
    rewrite (SFcompare_antisym (Prim2SF 1) (Prim2SF x)).
    destruct (SFcompare (Prim2SF 1) (Prim2SF x)) as [[]|] eqn:Hc;
      simpl; try reflexivity; try discriminate.
    exfalso. revert Hc.
    change (Prim2SF 1) with (S754_finite false 4503599627370496 (-52)).
    destruct (Prim2SF x) as [s'|s'| |s' m e]; simpl in *; discriminate. }
  destruct (x <? 1); [split; assumption|].
  change (get_sign 1) with false. simpl. split; assumption.
Qed.

(** [Math.min(1, x)] of a number that is not positive is [x] itself. *)
Lemma Math_min_one_negative x :
  sf_sign (Prim2SF x) = Some true ->
  Math.min 1 x = x /\ (x <=? 0) = true.
Proof.
  intros Hs.
  assert (Hn : is_nan x = false) by (apply is_nan_false_sign; eauto).
  unfold Math.min. change (is_nan 1) with false. rewrite Hn. simpl.
  rewrite !FloatAxioms.ltb_spec, FloatAxioms.leb_spec.
  change (Prim2SF 1) with (S754_finite false 4503599627370496 (-52)).
  change (Prim2SF 0) with (S754_zero false).
  destruct (Prim2SF x) as [s|s| |s m e]; simpl in Hs;
    try discriminate; injection Hs as ->; split; reflexivity.
Qed.

Lemma ltb_zero_sign x : (x <? 0) = true -> sf_sign (Prim2SF x) = Some true.
Proof.
  rewrite FloatAxioms.ltb_spec. change (Prim2SF 0) with (S754_zero false).
  destruct (Prim2SF x) as [s|[]| |[] m e]; simpl; unfold SFltb; simpl;
    congruence.
Qed.

End Binary64Signs.

Lemma JsMap_set_absent {V} (m : JsMap.t V) k v :
  k ∉ JsMap.keys m -> JsMap.set k v m = m ++ [(k, v)].
Proof.
  unfold JsMap.keys. induction m as [|[k0 v0] m IH]; intros H; [reflexivity|].
  rewrite fmap_cons in H. apply not_elem_of_cons in H as [Hk H].
  cbn [JsMap.set fst] in *.
  destruct (String.eqb_spec k0 k); [congruence|].
  rewrite IH by exact H. reflexivity.
Qed.

Section ForEachCategoryMore.

Variable body : Category -> JsMap.t float -> Category * JsMap.t float.
Variable after : Category -> Category.
Variable weight : Category -> float.
Hypothesis body_sets :
  forall c m, body c m = (after c, JsMap.set (categoryName c) (weight c) m).

(** With distinct names that the map does not hold yet, the loop appends
    one entry for each category, in order. *)
Lemma for_each_appends cats m :
  NoDup (JsMap.keys m ++ (categoryName <$> cats)) ->
  (for_each_category body cats m).2
  = m ++ ((fun c => (categoryName c, weight c)) <$> cats).
Proof.
  revert m. induction cats as [|c cats IH]; intros m H; simpl.
  - rewrite app_nil_r. reflexivity.
  - rewrite body_sets.
    assert (Hc : categoryName c ∉ JsMap.keys m).
    { apply NoDup_app in H as (_ & H & _). intros Hin.
      apply (H _ Hin). rewrite fmap_cons. apply list_elem_of_here. }
    rewrite (JsMap_set_absent m _ _ Hc).
    specialize (IH (m ++ [(categoryName c, weight c)])).
    destruct (for_each_category body cats _) as [rest' m']. simpl in *.
    rewrite IH, <- app_assoc; [reflexivity|].
    unfold JsMap.keys. rewrite fmap_app, <- app_assoc. exact H.
Qed.

(** Whatever the names: the weight under a name is that of the last
    category of that name, or what the map held before. *)
Lemma for_each_get_last cats m name :
  JsMap.get name (for_each_category body cats m).2
  = match last_named name cats with
    | Some c => Some (weight c)
    | None => JsMap.get name m
    end.
Proof.
  unfold last_named. revert m.
  induction cats as [|c cats IH]; intros m; simpl; [reflexivity|].
  rewrite body_sets.
  specialize (IH (JsMap.set (categoryName c) (weight c) m)).
  destruct (for_each_category body cats _) as [rest' m']. simpl in *.
  rewrite IH, filter_cons. case_decide as Hn.
  - rewrite last_cons.
    destruct (last (filter _ cats)); [reflexivity|].
    subst. apply JsMap_get_set_eq.
  - destruct (last (filter _ cats)); [reflexivity|].
    apply JsMap_get_set_ne, Hn.
Qed.

Lemma for_each_keys cats m name :
  name ∈ JsMap.keys (for_each_category body cats m).2
  <-> name ∈ JsMap.keys m \/ name ∈ categoryName <$> cats.
Proof.
  revert m. induction cats as [|c cats IH]; intros m; simpl.
  - rewrite elem_of_nil. tauto.
  - rewrite body_sets.
    specialize (IH (JsMap.set (categoryName c) (weight c) m)).
    destruct (for_each_category body cats _) as [rest' m']. simpl in *.
    rewrite IH, JsMap_keys_set, elem_of_cons.
    case_bool_decide as Hc; [|rewrite elem_of_app, list_elem_of_singleton];
      intuition (subst; auto).
Qed.

End ForEachCategoryMore.

(** The weight [retarget] returns under a name is computed from the last
    entry of that name. *)
Lemma retarget_weight_of_last
    (scores : list Category) (others : list Classifications) (e : Category) :
  last_named (categoryName e) scores = Some e ->
  weight_from (retarget ({| categories := scores |} :: others))
              (categoryName e)
  = Some (Math.min 1 (score e * select_gain (categoryName e))).
Proof.
  intros He. unfold weight_from, retarget. cbn [categories].
  pose proof (for_each_get_last _ _ _ retarget_body_sets scores JsMap.empty
                (categoryName e)) as Hget.
  destruct (for_each_category retarget_body scores _) as [c' m'].
  simpl in *. rewrite Hget, He. reflexivity.
Qed.

(** X1.  [retarget] clamps from above only.  For an entry of the first face
    that is the last of its name, the returned map holds a weight under
    that name, and: if the raw score is a number, whatever its range, the
    weight is a number and at most 1; if the raw score is negative, the
    weight is its product with the gain, unclamped and at most 0; if the
    raw score is NaN, the weight is NaN. *)
Theorem retarget_weight_upper_clamp_only
    (scores : list Category) (others : list Classifications) (e : Category) :
  last_named (categoryName e) scores = Some e ->
  exists w,
    weight_from (retarget ({| categories := scores |} :: others))
                (categoryName e) = Some w
    /\ (is_nan (score e) = false ->
        is_nan w = false /\ (w <=? 1)%float = true)
    /\ ((score e <? 0)%float = true ->
        w = (score e * select_gain (categoryName e))%float
        /\ (w <=? 0)%float = true)
    /\ (is_nan (score e) = true -> is_nan w = true).
Proof.
  intros He. eexists. split; [apply retarget_weight_of_last, He|].
  split; [|split].
  - intros H. apply Math_min_one_le, is_nan_false_sign.
    rewrite mul_gain_sign. apply is_nan_false_sign, H.
  - intros H. apply ltb_zero_sign in H.
    rewrite <- (mul_gain_sign _ (categoryName e)) in H.
    destruct (Math_min_one_negative _ H) as [Hm Hle]. rewrite Hm.
    split; [reflexivity|exact Hle].
  - intros H.
    assert (Hp : is_nan (score e * select_gain (categoryName e)) = true).
    { apply is_nan_sign. rewrite mul_gain_sign. apply is_nan_sign, H. }
    unfold Math.min. rewrite Hp, orb_true_r. reflexivity.
Qed.

(** A face whose scores are infinite, negative and NaN: the map holds a
    weight of at most 1 for the first, the unclamped product [-0.5 * 2.2]
    for the second and NaN for the third. *)
Lemma retarget_weight_upper_clamp_only_witness :
  (exists w,
     weight_from
       (retarget (one_face [entry "jawOpen" infinity;
                            entry "mouthClose" (-0.5);
                            entry "tongueOut" nan])) "jawOpen" = Some w
     /\ (w <=? 1)%float = true)
  /\ weight_from
       (retarget (one_face [entry "jawOpen" infinity;
                            entry "mouthClose" (-0.5);
                            entry "tongueOut" nan])) "mouthClose"
     = Some (-0.5 * 2.2)%float
  /\ exists w,
       weight_from
         (retarget (one_face [entry "jawOpen" infinity;
                              entry "mouthClose" (-0.5);
                              entry "tongueOut" nan])) "tongueOut" = Some w
       /\ is_nan w = true.
Proof.
  destruct (retarget_weight_upper_clamp_only
              [entry "jawOpen" infinity; entry "mouthClose" (-0.5);
               entry "tongueOut" nan] [] (entry "jawOpen" infinity) eq_refl)
    as (w1 & Hw1 & H1 & _ & _).
  destruct (retarget_weight_upper_clamp_only
              [entry "jawOpen" infinity; entry "mouthClose" (-0.5);
               entry "tongueOut" nan] [] (entry "mouthClose" (-0.5)) eq_refl)
    as (w2 & Hw2 & _ & H2 & _).
  destruct (retarget_weight_upper_clamp_only
              [entry "jawOpen" infinity; entry "mouthClose" (-0.5);
               entry "tongueOut" nan] [] (entry "tongueOut" nan) eq_refl)
    as (w3 & Hw3 & _ & _ & H3).
  split; [exists w1; split; [exact Hw1|exact (proj2 (H1 eq_refl))]|].
  split; [|exists w3; split; [exact Hw3|exact (H3 eq_refl)]].
  destruct (H2 eq_refl) as [-> _]. exact Hw2.
Defined.

(** X2.  The map [retarget] returns, for any score list of the first face: its
    keys are distinct and are the names of the list; the weight under a
    name comes from the last entry of that name; and when the names of the
    list are distinct the map is the list of the names with their weights,
    in the order of the list.  The other faces play no part. *)
Theorem retarget_returned_map
    (scores : list Category) (others : list Classifications) :
  exists input' coefsMap,
    retarget ({| categories := scores |} :: others) = Some (input', coefsMap)
    /\ NoDup (JsMap.keys coefsMap)
    /\ (forall name,
          name ∈ JsMap.keys coefsMap <-> name ∈ categoryName <$> scores)
    /\ (forall name,
          JsMap.get name coefsMap
          = (fun e => Math.min 1 (score e * select_gain (categoryName e)))
              <$> last_named name scores)
    /\ (NoDup (categoryName <$> scores) ->
        coefsMap
        = (fun e => (categoryName e,
                     Math.min 1 (score e * select_gain (categoryName e))))
            <$> scores).
Proof.
  unfold retarget. cbn [categories].
  pose proof (for_each_keys_NoDup _ _ _ retarget_body_sets scores
                JsMap.empty (NoDup_nil_2)) as Hnd.
  pose proof (for_each_keys _ _ _ retarget_body_sets scores JsMap.empty)
    as Hkeys.
  pose proof (for_each_get_last _ _ _ retarget_body_sets scores JsMap.empty)
    as Hget.
  pose proof (for_each_appends _ _ _ retarget_body_sets scores JsMap.empty)
    as Happ.
  destruct (for_each_category retarget_body scores _) as [c' m'].
  simpl in *. eexists _, _. split; [reflexivity|].
  split; [exact Hnd|]. split; [|split].
  - intros name. rewrite Hkeys, elem_of_nil. tauto.
  - intros name. rewrite Hget.
    destruct (last_named name scores); reflexivity.
  - intros H. apply Happ, H.
Qed.

Lemma retarget_returned_map_witness :
  snd <$> retarget (one_face [entry "jawOpen" 0.25; entry "cheekPuff" 0.5])
  = Some [("jawOpen", Math.min 1 (0.25 * 2.2)); ("cheekPuff", 0.5%float)].
Proof.
  destruct (retarget_returned_map
              [entry "jawOpen" 0.25; entry "cheekPuff" 0.5] [])
    as (input' & coefsMap & Hr & _ & _ & _ & Hmap).
  change (one_face [entry "jawOpen" 0.25; entry "cheekPuff" 0.5])
    with [{| categories := [entry "jawOpen" 0.25; entry "cheekPuff" 0.5] |}].
  rewrite Hr. simpl. f_equal. rewrite Hmap; [reflexivity|].
  apply NoDup_cons. split.
  - rewrite list_elem_of_singleton. discriminate.
  - apply NoDup_singleton.
Defined.

(** ** Applying weights more than once *)

Section JsArrayRaw.

Implicit Types (a : JsArray.t) (i j : nat) (v : float).

Lemma JsArray_set_length_le a i v : length a <= length (JsArray.set a i v).
Proof.
  unfold JsArray.set. case_decide.
  - rewrite length_insert. lia.
  - rewrite length_app. lia.
Qed.

Lemma JsArray_set_covers a i v : i < length (JsArray.set a i v).
Proof.
  unfold JsArray.set. case_decide as Hi.
  - rewrite length_insert. exact Hi.
  - rewrite !length_app, length_replicate. simpl. lia.
Qed.

Lemma JsArray_set_in_range a i v :
  i < length a -> JsArray.set a i v = <[i := Some v]> a.
Proof. intros Hi. unfold JsArray.set. case_decide; [reflexivity|lia]. Qed.

Lemma JsArray_get_Some a j v :
  JsArray.get a j = Some v -> a !! j = Some (Some v).
Proof.
  unfold JsArray.get. destruct (a !! j) as [[w|]|]; simpl; congruence.
Qed.

End JsArrayRaw.

Section WriteInfluencesTwice.

Variable dictionary : gmap string nat.
Implicit Types (weights : JsMap.t float) (influences : JsArray.t).

Lemma write_influences_length_le weights influences :
  length influences
  <= length (Avatar.write_influences dictionary weights influences).
Proof.
  revert influences.
  induction weights as [|[n v] weights IH]; intros influences; [reflexivity|].
  rewrite write_influences_cons. etrans; [|apply IH].
  case_bool_decide; [|reflexivity].
  destruct (dictionary !! n); [apply JsArray_set_length_le|reflexivity].
Qed.

(** After the loop the array reaches every slot the loop wrote to. *)
Lemma write_influences_covers weights influences n v idx :
  (n, v) ∈ weights -> dictionary !! n = Some idx ->
  idx < length (Avatar.write_influences dictionary weights influences).
Proof.
  revert influences.
  induction weights as [|[n0 v0] weights IH]; intros influences Hin Hd.
  - apply elem_of_nil in Hin. contradiction.
  - rewrite write_influences_cons.
    apply elem_of_cons in Hin as [[= <- <-]|Hin]; [|apply IH; assumption].
    rewrite bool_decide_eq_true_2 by (apply elem_of_dom; eauto).
    rewrite Hd.
    eapply Nat.lt_le_trans; [apply JsArray_set_covers|].
    apply write_influences_length_le.
Qed.

(** On an array that already reaches every slot the loop writes to, the
    loop changes the written slots only and keeps the length. *)
Lemma write_influences_in_range weights influences j :
  (forall n v idx, (n, v) ∈ weights -> dictionary !! n = Some idx ->
                   idx < length influences) ->
  Avatar.write_influences dictionary weights influences !! j
  = match last_writer dictionary weights j with
    | Some weight => Some (Some weight)
    | None => influences !! j
    end.
Proof.
  unfold last_writer. revert influences.
  induction weights as [|[n v] weights IH]; intros influences Hr;
    [reflexivity|].
  rewrite write_influences_cons, filter_cons. cbn [fst].
  assert (Hr' : forall n' v' idx, (n', v') ∈ weights ->
                  dictionary !! n' = Some idx -> idx < length influences).
  { intros n' v' idx Hin Hd'.
    apply (Hr n' v'); [apply list_elem_of_further, Hin|exact Hd']. }
  case_decide as Hn.
  - rewrite bool_decide_eq_true_2 by (apply elem_of_dom; eauto).
    rewrite Hn.
    assert (Hj : j < length influences)
      by (apply (Hr n v); [apply list_elem_of_here|exact Hn]).
    rewrite JsArray_set_in_range by exact Hj.
    rewrite IH by (intros n' v' idx' ? ?; rewrite length_insert;
                   apply (Hr' n' v'); assumption).
    rewrite last_cons.
    destruct (last (filter _ weights)) as [[n' v']|]; simpl; [reflexivity|].
    apply list_lookup_insert_eq, Hj.
  - case_bool_decide as Hdom.
    + destruct (dictionary !! n) as [idx|] eqn:E.
      * assert (Hidx : idx < length influences)
          by (apply (Hr n v); [apply list_elem_of_here|exact E]).
        rewrite JsArray_set_in_range by exact Hidx.
        rewrite IH by (intros n' v' idx' ? ?; rewrite length_insert;
                       apply (Hr' n' v'); assumption).
        destruct (last (filter _ weights)) as [[n' v']|]; simpl;
          [reflexivity|].
        apply list_lookup_insert_ne. congruence.
      * rewrite IH by exact Hr'. reflexivity.
    + rewrite IH by exact Hr'. reflexivity.
Qed.

Lemma write_influences_idempotent weights influences :
  Avatar.write_influences dictionary weights
    (Avatar.write_influences dictionary weights influences)
  = Avatar.write_influences dictionary weights influences.
Proof.
  apply list_eq. intros j.
  rewrite write_influences_in_range
    by (intros; eapply write_influences_covers; eauto).
  pose proof (write_influences_last_writer dictionary weights influences j)
    as H.
  destruct (last_writer dictionary weights j) as [weight|]; [|reflexivity].
  symmetry. apply JsArray_get_Some, H.
Qed.

End WriteInfluencesTwice.

Lemma update_mesh_idempotent weights mesh :
  Avatar.update_mesh weights (Avatar.update_mesh weights mesh)
  = Avatar.update_mesh weights mesh.
Proof.
  unfold Avatar.update_mesh. destruct mesh as [[d|] [a|]]; simpl;
    try reflexivity.
  rewrite write_influences_idempotent. reflexivity.
Qed.

Lemma updateBlendshapes_idempotent_aux av weights :
  Avatar.updateBlendshapes (Avatar.updateBlendshapes av weights) weights
  = Avatar.updateBlendshapes av weights.
Proof.
  unfold Avatar.updateBlendshapes. simpl. f_equal.
  rewrite <- list_fmap_compose. apply list_fmap_ext.
  intros i mesh _. apply update_mesh_idempotent.
Qed.

(** X3.  Applying the same weights a second time changes nothing, whatever the
    dictionaries and the arrays, holes and out-of-range slots included. *)
Theorem updateBlendshapes_idempotent
    (this : Avatar.t) (weights : JsMap.t float) :
  Avatar.updateBlendshapes (Avatar.updateBlendshapes this weights) weights
  = Avatar.updateBlendshapes this weights.
Proof. apply updateBlendshapes_idempotent_aux. Qed.

(** X4.  After two calls, a slot holds the weight the second call wrote to it;
    a slot the second call did not write to keeps what the first call wrote
    to it; a slot neither wrote to keeps its value.  Nothing resets a
    slot. *)
Theorem updateBlendshapes_twice
    (this : Avatar.t) (first second : JsMap.t float)
    (i : nat) (mesh : THREE.Mesh)
    (dictionary : gmap string nat) (influences : JsArray.t) :
  Avatar.morphTargetMeshes this !! i = Some mesh ->
  THREE.morphTargetDictionary mesh = Some dictionary ->
  THREE.morphTargetInfluences mesh = Some influences ->
  exists influences'',
    THREE.morphTargetInfluences
      <$> Avatar.morphTargetMeshes
            (Avatar.updateBlendshapes
               (Avatar.updateBlendshapes this first) second) !! i
    = Some (Some influences'')
    /\ forall slot,
         JsArray.get influences'' slot
         = match last_writer dictionary second slot with
           | Some weight => Some weight
           | None =>
               match last_writer dictionary first slot with
               | Some weight => Some weight
               | None => JsArray.get influences slot
               end
           end.
Proof.
  intros Hi Hd Ha. simpl.
  rewrite !list_lookup_fmap, Hi. simpl.
  unfold Avatar.update_mesh. rewrite Hd, Ha. simpl.
  eexists. split; [reflexivity|]. intros slot.
  rewrite !write_influences_last_writer. reflexivity.
Qed.

Lemma updateBlendshapes_twice_witness :
  exists influences'',
    THREE.morphTargetInfluences
      <$> Avatar.morphTargetMeshes
            (Avatar.updateBlendshapes
               (Avatar.updateBlendshapes loaded_avatar sample_weights)
               [("eyeBlinkLeft", 0.9%float)]) !! 0%nat
    = Some (Some influences'')
    /\ JsArray.get influences'' 0 = Some 0.7%float.
Proof.
  destruct (updateBlendshapes_twice loaded_avatar sample_weights
              [("eyeBlinkLeft", 0.9%float)] 0 jaw_mesh
              {[ "jawOpen" := 0%nat ]} [Some 0.1%float; Some 0.2%float]
              eq_refl eq_refl eq_refl) as (influences'' & H & Hslot).
  exists influences''. split; [exact H|].
  rewrite Hslot. vm_compute. reflexivity.
Defined.

(** ** Frames, one after the other *)

Lemma update_mesh_shape weights mesh :
  mesh_shape (Avatar.update_mesh weights mesh) = mesh_shape mesh.
Proof.
  unfold Avatar.update_mesh, mesh_shape.
  destruct mesh as [[d|] [a|]]; reflexivity.
Qed.

Lemma updateBlendshapes_shape av weights :
  rig_shape (Avatar.updateBlendshapes av weights) = rig_shape av.
Proof.
  unfold rig_shape, Avatar.updateBlendshapes. simpl. f_equal.
  rewrite <- list_fmap_compose. apply list_fmap_ext.
  intros i mesh _. apply update_mesh_shape.
Qed.

Lemma applyMatrix_shape av matrix options :
  rig_shape (Avatar.applyMatrix av matrix options).1 = rig_shape av.
Proof.
  unfold rig_shape, Avatar.applyMatrix.
  destruct (Avatar.gltf av) eqn:E; simpl; rewrite ?E; reflexivity.
Qed.

Lemma overlay_applyMatrix_shape overlay matrix options :
  overlay_shape (FaceOverlay.applyMatrix overlay matrix options).1
  = overlay_shape overlay.
Proof.
  unfold overlay_shape, FaceOverlay.applyMatrix.
  destruct (FaceOverlay.mesh overlay) eqn:E; simpl; rewrite ?E; reflexivity.
Qed.

(** The guard on [blendshapes.length] keeps [retarget] from throwing. *)
Lemma retarget_step_returns av blendshapes :
  exists av', retarget_step av blendshapes = Some av'
              /\ rig_shape av' = rig_shape av.
Proof.
  destruct blendshapes as [[|first others]|]; simpl; eauto.
  destruct (for_each_category retarget_body _ _) as [c' m']. simpl.
  eexists. split; [reflexivity|]. apply updateBlendshapes_shape.
Qed.

Lemma detectFaceLandmarks_shape g time :
  exists g',
    detectFaceLandmarks g time = Some g'
    /\ faceLandmarker g' = faceLandmarker g
    /\ video g' = video g
    /\ rig_shape <$> avatar g' = rig_shape <$> avatar g
    /\ overlay_shape <$> faceOverlay g' = overlay_shape <$> faceOverlay g.
Proof.
  unfold detectFaceLandmarks.
  destruct (faceLandmarker g) as [detector|] eqn:Ed; [|eauto 10].
  destruct (video g) as [v|] eqn:Ev; [|eauto 10].
  destruct (facialTransformationMatrixes _) as [[|first rest]|];
    [eauto 10| |eauto 10].
  assert (Ho : exists o' m',
             match faceOverlay g with
             | Some overlay =>
                 let '(overlay', matrix') :=
                   FaceOverlay.applyMatrix overlay (fromArray (data first))
                     (with_scale 40) in
                 (Some overlay', matrix')
             | None => (None, fromArray (data first))
             end = (o', m')
             /\ overlay_shape <$> o' = overlay_shape <$> faceOverlay g).
  { destruct (faceOverlay g) as [overlay|]; [|eauto].
    pose proof (overlay_applyMatrix_shape overlay (fromArray (data first))
                  (with_scale 40)) as H.
    destruct (FaceOverlay.applyMatrix overlay _ _) as [o' m'].
    simpl in *. eexists _, _. split; [reflexivity|]. simpl. f_equal. exact H. }
  destruct Ho as (o' & m' & -> & Hshape).
  destruct (avatar g) as [av|] eqn:Ea; [|eauto 10].
  pose proof (applyMatrix_shape av m' (with_scale 40)) as Hav.
  destruct (Avatar.applyMatrix av m' (with_scale 40)) as [av' m''].
  destruct (retarget_step_returns av' (faceBlendshapes (detectForVideo detector v time)))
    as (av'' & -> & Hav'').
  simpl in *. eexists. split; [reflexivity|]. simpl.
  repeat split; auto. f_equal. congruence.
Qed.

(** X5.  Any run of frames returns without an exception, whatever the detector
    reports, and leaves alone: the detector and video handles; whether
    there is an avatar and whether its asset is loaded; the number of
    meshes, every mesh's dictionary and whether it has an influence array;
    whether there is an overlay, whether its mesh exists, and its scale. *)
Theorem run_frames_keeps_shape (g : Globals) (times : list float) :
  exists g',
    run_frames g times = Some g'
    /\ faceLandmarker g' = faceLandmarker g
    /\ video g' = video g
    /\ rig_shape <$> avatar g' = rig_shape <$> avatar g
    /\ overlay_shape <$> faceOverlay g' = overlay_shape <$> faceOverlay g.
Proof.
  revert g. induction times as [|time later IH]; intros g; simpl.
  - eauto 10.
  - destruct (detectFaceLandmarks_shape g time)
      as (g1 & -> & H1 & H2 & H3 & H4). simpl.
    destruct (IH g1) as (g' & -> & H1' & H2' & H3' & H4').
    eexists. split; [reflexivity|]. repeat split; congruence.
Qed.

(** X6.  The earlier copy of [detectFaceLandmarks] returns without an exception
    as well, and leaves the same things alone. *)
Theorem legacy_detectFaceLandmarks_keeps_shape (g : Globals) (time : float) :
  exists g',
    Legacy.detectFaceLandmarks g time = Some g'
    /\ faceLandmarker g' = faceLandmarker g
    /\ video g' = video g
    /\ rig_shape <$> avatar g' = rig_shape <$> avatar g
    /\ faceOverlay g' = faceOverlay g.
Proof.
  unfold Legacy.detectFaceLandmarks.
  destruct (faceLandmarker g) as [detector|] eqn:Ed; [|eauto 10].
  destruct (video g) as [v|] eqn:Ev; [|eauto 10].
  destruct (avatar g) as [av|] eqn:Ea;
    [|exists g; rewrite Ea; repeat split; auto].
  set (av' := match facialTransformationMatrixes _ with
              | Some (first :: _) => _
              | _ => av
              end).
  assert (Hav : rig_shape av' = rig_shape av).
  { subst av'. destruct (facialTransformationMatrixes _) as [[|first rest]|];
      try reflexivity. apply applyMatrix_shape. }
  destruct (faceBlendshapes _) as [[|first others]|];
    try (eexists; split; [reflexivity|]; simpl; repeat split; auto;
         f_equal; exact Hav).
  unfold Legacy.retarget.
  destruct (for_each_category Legacy.retarget_body _ _) as [c' m']. simpl.
  eexists. split; [reflexivity|]. simpl. repeat split; auto.
  f_equal. rewrite updateBlendshapes_shape. exact Hav.
Qed.

Lemma overlay_applyMatrix_argument overlay matrix options :
  (FaceOverlay.applyMatrix overlay matrix options).2 = matrix.
Proof.
  unfold FaceOverlay.applyMatrix.
  destruct (FaceOverlay.mesh overlay); reflexivity.
Qed.

Lemma overlay_applyMatrix_again overlay matrix options :
  (FaceOverlay.applyMatrix
     (FaceOverlay.applyMatrix overlay matrix options).1 matrix options).1
  = (FaceOverlay.applyMatrix overlay matrix options).1.
Proof.
  unfold FaceOverlay.applyMatrix.
  destruct (FaceOverlay.mesh overlay) eqn:E; simpl; rewrite ?E; reflexivity.
Qed.

Lemma applyMatrix_again av matrix options :
  (Avatar.applyMatrix (Avatar.applyMatrix av matrix options).1
     matrix options).1
  = (Avatar.applyMatrix av matrix options).1.
Proof.
  unfold Avatar.applyMatrix.
  destruct (Avatar.gltf av) eqn:E; simpl; rewrite ?E; reflexivity.
Qed.

Lemma applyMatrix_updateBlendshapes av weights matrix options :
  (Avatar.applyMatrix (Avatar.updateBlendshapes av weights) matrix options).1
  = Avatar.updateBlendshapes (Avatar.applyMatrix av matrix options).1 weights.
Proof.
  unfold Avatar.applyMatrix, Avatar.updateBlendshapes.
  destruct av as [[g|] meshes]; reflexivity.
Qed.

Lemma retarget_step_cases av blendshapes :
  retarget_step av blendshapes = Some av
  \/ exists weights,
       retarget_step av blendshapes
       = Some (Avatar.updateBlendshapes av weights)
       /\ forall av0,
            retarget_step av0 blendshapes
            = Some (Avatar.updateBlendshapes av0 weights).
Proof.
  destruct blendshapes as [[|first others]|]; simpl; auto.
  destruct (for_each_category retarget_body _ _) as [c' m']. simpl. eauto.
Qed.

(** Processing the same detection again changes nothing. *)
Lemma detectFaceLandmarks_again (g g' : Globals) (time : float) :
  detectFaceLandmarks g time = Some g' ->
  detectFaceLandmarks g' time = Some g'.
Proof.
  unfold detectFaceLandmarks.
  destruct (faceLandmarker g) as [detector|] eqn:Ed;
    [|intros [= <-]; rewrite Ed; reflexivity].
  destruct (video g) as [v|] eqn:Ev;
    [|intros [= <-]; rewrite Ed, Ev; reflexivity].
  destruct (facialTransformationMatrixes (detectForVideo detector v time))
    as [[|first rest]|] eqn:Em;
    try (intros [= <-]; rewrite Ed, Ev, Em; reflexivity).
  set (m0 := fromArray (data first)).
  assert (Ho : forall o : option FaceOverlay.t,
             match o with
             | Some overlay =>
                 let '(overlay', matrix') :=
                   FaceOverlay.applyMatrix overlay m0 (with_scale 40) in
                 (Some overlay', matrix')
             | None => (None, m0)
             end
             = ((fun overlay =>
                   (FaceOverlay.applyMatrix overlay m0 (with_scale 40)).1)
                  <$> o, m0)).
  { intros [overlay|]; [|reflexivity]. cbn [fmap option_fmap option_map].
    pose proof (overlay_applyMatrix_argument overlay m0 (with_scale 40)) as H.
    destruct (FaceOverlay.applyMatrix overlay m0 (with_scale 40)).
    simpl in *. subst. reflexivity. }
  rewrite Ho.
  assert (Ho' : (fun overlay =>
                   (FaceOverlay.applyMatrix overlay m0 (with_scale 40)).1)
                  <$> ((fun overlay =>
                          (FaceOverlay.applyMatrix overlay m0 (with_scale 40)).1)
                         <$> faceOverlay g)
                = (fun overlay =>
                     (FaceOverlay.applyMatrix overlay m0 (with_scale 40)).1)
                    <$> faceOverlay g).
  { destruct (faceOverlay g); simpl; [|reflexivity].
    rewrite overlay_applyMatrix_again. reflexivity. }
  destruct (avatar g) as [av|] eqn:Ea.
  - pose proof (applyMatrix_again av m0 (with_scale 40)) as Hagain.
    destruct (Avatar.applyMatrix av m0 (with_scale 40)) as [av1 m1] eqn:E1.
    simpl in Hagain.
    destruct (retarget_step_cases av1
                (faceBlendshapes (detectForVideo detector v time)))
      as [Hs|(weights & Hs & Hall)]; rewrite Hs; simpl; intros [= <-];
      simpl; rewrite Em, Ho, Ho'.
    + destruct (Avatar.applyMatrix av1 m0 (with_scale 40)) as [av2 m2].
      simpl in Hagain. subst av2. rewrite Hs. reflexivity.
    + pose proof (applyMatrix_updateBlendshapes av1 weights m0 (with_scale 40))
        as Hc.
      destruct (Avatar.applyMatrix (Avatar.updateBlendshapes av1 weights)
                  m0 (with_scale 40)) as [av2 m2].
      simpl in Hc. subst av2. rewrite Hagain, Hall. simpl.
      rewrite updateBlendshapes_idempotent_aux. reflexivity.
  - intros [= <-]. simpl. rewrite Em, Ho, Ho'. reflexivity.
Qed.

(** The call depends on the time through the detector's report only. *)
Lemma detectFaceLandmarks_report (g : Globals) (time later : float) :
  (forall detector v,
     faceLandmarker g = Some detector -> video g = Some v ->
     detectForVideo detector v later = detectForVideo detector v time) ->
  detectFaceLandmarks g later = detectFaceLandmarks g time.
Proof.
  intros H. unfold detectFaceLandmarks.
  destruct (faceLandmarker g) as [detector|]; [|reflexivity].
  destruct (video g) as [v|]; [|reflexivity].
  rewrite (H detector v eq_refl eq_refl). reflexivity.
Qed.

(** X7.  If the detector reports for a later frame what it reported for the
    frame just processed, processing the later frame changes nothing: the
    pose is set from the detector's numbers, not from the transform in
    place, and the weights overwrite.  The two frames, one after the
    other, leave what the first alone leaves. *)
Theorem detectFaceLandmarks_idempotent
    (g g' : Globals) (time later : float) :
  (forall detector v,
     faceLandmarker g = Some detector -> video g = Some v ->
     detectForVideo detector v later = detectForVideo detector v time) ->
  detectFaceLandmarks g time = Some g' ->
  detectFaceLandmarks g' later = Some g'
  /\ run_frames g [time; later] = run_frames g [time].
Proof.
  intros Hsame Hfirst.
  assert (Hlater : detectFaceLandmarks g' later = Some g').
  { destruct (detectFaceLandmarks_shape g time)
      as (g1 & Hg1 & Hd & Hv & _).
    rewrite Hfirst in Hg1. injection Hg1 as <-.
    rewrite (detectFaceLandmarks_report g' time later).
    - apply (detectFaceLandmarks_again g), Hfirst.
    - intros detector v Hdet Hvid. apply Hsame; congruence. }
  split; [exact Hlater|].
  cbn [run_frames]. rewrite Hfirst. cbn [mbind option_bind].
  rewrite Hlater. reflexivity.
Qed.

(** A detector that reports the same pose and scores for every frame: the
    frame at 16 ms leaves what the frame at 0 ms left, the pose scaled by
    40 once. *)
Lemma detectFaceLandmarks_idempotent_witness :
  exists g',
    detectFaceLandmarks (running pose_and_scores) 0 = Some g'
    /\ detectFaceLandmarks g' 16 = Some g'
    /\ run_frames (running pose_and_scores) [0; 16]%float = Some g'
    /\ avatar_matrix g' = Some (THREE.scale sample_pose (uniform 40)).
Proof.
  eexists. split; [reflexivity|].
  match goal with
  | |- detectFaceLandmarks ?g' _ = _ /\ _ =>
      destruct (detectFaceLandmarks_idempotent
                  (running pose_and_scores) g' 0 16) as [H1 H2]
  end.
  - intros detector v [= <-] _. reflexivity.
  - reflexivity.
  - split; [exact H1|]. split; [rewrite H2; reflexivity|reflexivity].
Defined.

(** X8.  In a frame with a pose, a loaded overlay and a loaded avatar end with
    the same transform, the detected pose scaled by 40: the overlay is
    served first and scales a clone, so the scaling that
    [Avatar.applyMatrix] does in place on the shared matrix reaches the
    avatar once and the overlay not at all. *)
Theorem detectFaceLandmarks_overlay_and_avatar_pose
    (g : Globals) (detector : FaceLandmarker) (v : HTMLVideoElement)
    (time : float) (first : Matrix) (rest : list Matrix)
    (overlay : FaceOverlay.t) (av : Avatar.t) :
  faceLandmarker g = Some detector ->
  video g = Some v ->
  facialTransformationMatrixes (detectForVideo detector v time)
    = Some (first :: rest) ->
  faceOverlay g = Some overlay ->
  is_Some (FaceOverlay.mesh overlay) ->
  avatar g = Some av ->
  is_Some (Avatar.gltf av) ->
  exists g',
    detectFaceLandmarks g time = Some g'
    /\ overlay_matrix g' = Some (THREE.scale (data first) (uniform 40))
    /\ avatar_matrix g' = Some (THREE.scale (data first) (uniform 40)).
Proof.
  intros Hd Hv Hm Ho [mesh Hmesh] Ha [gltf Hg].
  unfold detectFaceLandmarks. rewrite Hd, Hv, Hm, Ho, Ha.
  unfold FaceOverlay.applyMatrix, Avatar.applyMatrix. rewrite Hmesh, Hg.
  cbv zeta. cbn [default with_scale opt_scale fst snd].
  match goal with
  | |- context [retarget_step ?x ?b] =>
      destruct (retarget_step_cases x b) as [Hs|(weights & Hs & _)];
        rewrite Hs
  end; simpl; eexists; (split; [reflexivity|]); split; reflexivity.
Qed.

Lemma detectFaceLandmarks_overlay_and_avatar_pose_witness :
  exists g',
    detectFaceLandmarks (running_with_overlay pose_and_scores) 0 = Some g'
    /\ overlay_matrix g' = Some (THREE.scale sample_pose (uniform 40))
    /\ avatar_matrix g' = Some (THREE.scale sample_pose (uniform 40)).
Proof.
  refine (detectFaceLandmarks_overlay_and_avatar_pose
            (running_with_overlay pose_and_scores)
            (constant_detector pose_and_scores) 0%nat 0%float
            {| data := sample_pose |} [] loaded_overlay loaded_avatar
            eq_refl eq_refl eq_refl eq_refl _ eq_refl _);
    eexists; reflexivity.
Defined.

(** X9.  A frame with a pose and a score list drives the rig: in every mesh of
    the avatar that has a dictionary and an influence array, the slot the
    dictionary gives the name of an entry ends with
    [Math.min(1, score * gain)] of that entry, which lies in [[0,1]] when
    the raw score does.  The names of the list are distinct and a
    dictionary gives different names different slots. *)
Theorem detectFaceLandmarks_drives_named_slots
    (g : Globals) (detector : FaceLandmarker) (v : HTMLVideoElement)
    (time : float) (first : Matrix) (rest : list Matrix)
    (scores : list Category) (others : list Classifications)
    (av : Avatar.t) :
  faceLandmarker g = Some detector ->
  video g = Some v ->
  facialTransformationMatrixes (detectForVideo detector v time)
    = Some (first :: rest) ->
  faceBlendshapes (detectForVideo detector v time)
    = Some ({| categories := scores |} :: others) ->
  avatar g = Some av ->
  NoDup (categoryName <$> scores) ->
  Forall well_formed_mesh (Avatar.morphTargetMeshes av) ->
  exists g' av',
    detectFaceLandmarks g time = Some g'
    /\ avatar g' = Some av'
    /\ forall i mesh dictionary influences,
         Avatar.morphTargetMeshes av !! i = Some mesh ->
         THREE.morphTargetDictionary mesh = Some dictionary ->
         THREE.morphTargetInfluences mesh = Some influences ->
         exists influences',
           THREE.morphTargetInfluences <$> Avatar.morphTargetMeshes av' !! i
           = Some (Some influences')
           /\ forall e slot,
                e ∈ scores ->
                dictionary !! categoryName e = Some slot ->
                JsArray.get influences' slot
                = Some (Math.min 1 (score e * select_gain (categoryName e)))
                /\ (in_unit_interval (score e) ->
                    in_unit_interval
                      (Math.min 1 (score e * select_gain (categoryName e)))).
Proof.
  intros Hd Hv Hm Hb Ha Hnd Hwf.
  unfold detectFaceLandmarks. rewrite Hd, Hv, Hm, Hb, Ha.
  destruct (match faceOverlay g with
            | Some overlay =>
                let '(overlay', matrix') :=
                  FaceOverlay.applyMatrix overlay (fromArray (data first))
                    (with_scale 40) in
                (Some overlay', matrix')
            | None => (None, fromArray (data first))
            end) as [o' m'].
  pose proof (applyMatrix_meshes av m' (with_scale 40)) as Hmeshes.
  destruct (Avatar.applyMatrix av m' (with_scale 40)) as [av1 m1].
  simpl in Hmeshes. unfold retarget_step, retarget. cbn [categories].
  pose proof (for_each_get _ _ _ retarget_body_sets scores JsMap.empty)
    as Hget.
  pose proof (for_each_keys_NoDup _ _ _ retarget_body_sets scores
                JsMap.empty (NoDup_nil_2)) as Hkeys.
  destruct (for_each_category retarget_body scores JsMap.empty)
    as [c' coefsMap]. simpl in *.
  eexists _, _. split; [reflexivity|]. split; [reflexivity|].
  intros i mesh dictionary influences Hi Hdict Hinfl.
  cbn [Avatar.updateBlendshapes Avatar.morphTargetMeshes].
  rewrite Hmeshes, !list_lookup_fmap, Hi. simpl.
  unfold Avatar.update_mesh. rewrite Hdict, Hinfl. simpl.
  eexists. split; [reflexivity|]. intros e slot He Hslot. split.
  - rewrite Forall_forall in Hwf.
    apply (write_influences_named dictionary coefsMap influences
             (categoryName e)).
    + apply (Hwf mesh); [eapply list_elem_of_lookup_2; eauto|exact Hdict].
    + exact Hkeys.
    + exact Hslot.
    + apply (Hget e Hnd He).
  - intros [H0 _]. apply (weight_of_unit e H0).
Qed.

Lemma detectFaceLandmarks_drives_named_slots_witness :
  exists g' av' influences',
    detectFaceLandmarks (running pose_and_scores) 0 = Some g'
    /\ avatar g' = Some av'
    /\ THREE.morphTargetInfluences <$> Avatar.morphTargetMeshes av' !! 0%nat
       = Some (Some influences')
    /\ JsArray.get influences' 0 = Some 1%float.
Proof.
  assert (Hnd : NoDup (categoryName <$> [entry "jawOpen" 0.5])).
  { apply NoDup_singleton. }
  assert (Hwf : Forall well_formed_mesh (Avatar.morphTargetMeshes loaded_avatar)).
  { apply Forall_singleton. intros dictionary [= <-] n1 n2 slot H1 H2.
    apply lookup_singleton_Some in H1 as [<- _].
    apply lookup_singleton_Some in H2 as [<- _]. reflexivity. }
  destruct (detectFaceLandmarks_drives_named_slots
              (running pose_and_scores) (constant_detector pose_and_scores)
              0%nat 0%float {| data := sample_pose |} []
              [entry "jawOpen" 0.5] [] loaded_avatar
              eq_refl eq_refl eq_refl eq_refl eq_refl Hnd Hwf)
    as (g' & av' & Hg & Hav & Hslots).
  destruct (Hslots 0%nat jaw_mesh {[ "jawOpen" := 0%nat ]}
              [Some 0.1%float; Some 0.2%float] eq_refl eq_refl eq_refl)
    as (influences' & Hi & Hw).
  exists g', av', influences'. split; [exact Hg|]. split; [exact Hav|].
  split; [exact Hi|].
  destruct (Hw (entry "jawOpen" 0.5) 0%nat) as [H _].
  - apply list_elem_of_here.
  - apply lookup_singleton_eq.
  - exact H.
Defined.

(** ** Loading a model *)

Section Traverse.

Import AvatarLoad.

(** Induction on a graph, with the property at hand for every child. *)
Lemma SceneObject_graph_ind (P : SceneObject -> Prop) :
  (forall own children, Forall P children -> P (Node own children)) ->
  forall object, P object.
Proof.
  intros Hnode. fix IH 1. intros [own children]. apply Hnode.
  induction children as [|c cs IHcs]; constructor; [apply IH|exact IHcs].
Qed.

Context {S : Type}.
Variable callback : ObjectData -> S -> ObjectData * S.

Lemma traverse_children (cs : list SceneObject) (s : S) :
  Forall (fun c => forall s,
            (traverse callback c s).2
            = foldl (fun s d => (callback d s).2) s (preorder c)) cs ->
  ((fix each (cs : list SceneObject) (s : S) : list SceneObject * S :=
      match cs with
      | [] => ([], s)
      | c :: cs' =>
          let '(c', s') := traverse callback c s in
          let '(cs'', s'') := each cs' s' in
          (c' :: cs'', s'')
      end) cs s).2
  = foldl (fun s d => (callback d s).2) s (flat_map preorder cs).
Proof.
  intros H. revert s. induction H as [|c cs Hc _ IH]; intros s;
    [reflexivity|].
  specialize (Hc s). destruct (traverse callback c s) as [c' s'].
  specialize (IH s'). simpl in *.
  match goal with
  | |- context [let '(_, _) := ?e in _] => destruct e as [cs'' s'']
  end.
  simpl in *. rewrite foldl_app, <- Hc. exact IH.
Qed.

(** [traverse] threads the state through the objects in [preorder]. *)
Lemma traverse_state object : forall s,
  (traverse callback object s).2
  = foldl (fun s d => (callback d s).2) s (preorder object).
Proof.
  induction object as [own children IH] using SceneObject_graph_ind.
  intros s. simpl.
  destruct (callback own s) as [own' s1].
  pose proof (traverse_children children s1 IH) as H.
  match goal with
  | |- context [let '(_, _) := ?e in _] => destruct e as [cs' s2]
  end.
  simpl in *. exact H.
Qed.

Variable f : ObjectData -> ObjectData.
Hypothesis callback_object : forall d s, (callback d s).1 = f d.

Lemma traverse_graph object : forall s,
  (traverse callback object s).1 = map_graph f object.
Proof.
  induction object as [own children IH] using SceneObject_graph_ind.
  intros s. simpl.
  pose proof (callback_object own s) as Hown.
  destruct (callback own s) as [own' s1]. simpl in Hown. subst own'.
  assert (H : forall s,
             ((fix each (cs : list SceneObject) (s : S)
                 : list SceneObject * S :=
                 match cs with
                 | [] => ([], s)
                 | c :: cs' =>
                     let '(c', s') := traverse callback c s in
                     let '(cs'', s'') := each cs' s' in
                     (c' :: cs'', s'')
                 end) children s).1
             = map (map_graph f) children).
  { induction IH as [|c cs Hc _ IHcs]; intros s0; [reflexivity|].
    specialize (Hc s0). destruct (traverse callback c s0) as [c' s'].
    specialize (IHcs s'). simpl in *.
    match goal with
    | |- context [let '(_, _) := ?e in _] => destruct e as [cs'' s'']
    end.
    simpl in *. congruence. }
  specialize (H s1).
  match goal with
  | |- context [let '(_, _) := ?e in _] => destruct e as [cs' s2]
  end.
  simpl in *. congruence.
Qed.

End Traverse.

Section Init.

Import AvatarLoad.

Lemma init_callback_object d s : (init_callback d s).1 = after_init d.
Proof.
  unfold init_callback, after_init. destruct s as [[r ms] ids].
  destruct (isMesh d); simpl; [|reflexivity].
  destruct (THREE.morphTargetDictionary (morph d)),
           (THREE.morphTargetInfluences (morph d)); reflexivity.
Qed.

Lemma init_callback_state d r ms ids :
  (init_callback d (r, ms, ids)).2
  = (match r with
     | Some _ => r
     | None => if isBone d then Some (uuid d) else None
     end,
     ms ++ option_list (morph_mesh d),
     ids ++ option_list ((fun _ => uuid d) <$> morph_mesh d)).
Proof.
  unfold init_callback, morph_mesh.
  assert (Hr : (if isBone d && negb (bool_decide (is_Some r))
                then Some (uuid d) else r)
               = match r with
                 | Some _ => r
                 | None => if isBone d then Some (uuid d) else None
                 end).
  { destruct r as [r|].
    - rewrite bool_decide_eq_true_2 by eauto. rewrite andb_false_r.
      reflexivity.
    - rewrite bool_decide_eq_false_2 by (intros [? ?]; discriminate).
      rewrite andb_true_r. reflexivity. }
  rewrite Hr.
  destruct (isMesh d); simpl; [|rewrite !app_nil_r; reflexivity].
  destruct (THREE.morphTargetDictionary (morph d)) as [dict|],
           (THREE.morphTargetInfluences (morph d)) as [infl|]; simpl;
    rewrite ?app_nil_r;
    repeat (rewrite bool_decide_eq_true_2 by eauto);
    repeat (rewrite bool_decide_eq_false_2
              by (intros [? ?]; discriminate));
    simpl; rewrite ?app_nil_r; reflexivity.
Qed.

Lemma first_bone_cons d l :
  first_bone (d :: l) = if isBone d then Some (uuid d) else first_bone l.
Proof.
  unfold first_bone. rewrite filter_cons.
  destruct (isBone d); case_decide; try congruence; reflexivity.
Qed.

Lemma first_bone_app l1 l2 :
  first_bone (l1 ++ l2)
  = match first_bone l1 with
    | Some r => Some r
    | None => first_bone l2
    end.
Proof.
  induction l1 as [|d l1 IH]; [reflexivity|].
  rewrite <- app_comm_cons, !first_bone_cons.
  destruct (isBone d); [reflexivity|exact IH].
Qed.

Lemma init_visits l : forall r ms ids,
  foldl (fun s d => (init_callback d s).2) (r, ms, ids) l
  = (match r with Some _ => r | None => first_bone l end,
     ms ++ morph_meshes l,
     ids ++ morph_mesh_ids l).
Proof.
  induction l as [|d l IH]; intros r ms ids; cbn [foldl].
  - destruct r; rewrite !app_nil_r; reflexivity.
  - rewrite init_callback_state, IH, first_bone_cons.
    unfold morph_meshes, morph_mesh_ids. cbn [omap list_omap].
    destruct r as [r|]; [|destruct (isBone d)];
      destruct (morph_mesh d); simpl; rewrite <- ?app_assoc; reflexivity.
Qed.

Lemma morph_meshes_expose_both l : Forall exposes_both (morph_meshes l).
Proof.
  unfold morph_meshes. induction l as [|d l IH]; [constructor|].
  cbn [omap list_omap]. unfold morph_mesh at 1.
  destruct (isMesh d); simpl; [|exact IH].
  case_bool_decide as Hd; simpl; [|exact IH].
  case_bool_decide as Hi; simpl; [|exact IH].
  constructor; [split; assumption|exact IH].
Qed.

(** The collected objects are the collected meshes, one for one. *)
Lemma morph_mesh_ids_length l :
  length (morph_mesh_ids l) = length (morph_meshes l).
Proof.
  unfold morph_mesh_ids, morph_meshes. induction l as [|d l IH];
    [reflexivity|].
  cbn [omap list_omap]. destruct (morph_mesh d); simpl; congruence.
Qed.

Lemma init_result r ms ids gltf :
  init r ms ids gltf
  = (map_graph after_init (graph gltf),
     (match r with
      | Some _ => r
      | None => first_bone (preorder (graph gltf))
      end,
      ms ++ morph_meshes (preorder (graph gltf)),
      ids ++ morph_mesh_ids (preorder (graph gltf)))).
Proof.
  unfold init.
  pose proof (traverse_graph init_callback after_init init_callback_object
                (graph gltf) (r, ms, ids)) as H1.
  pose proof (traverse_state init_callback (graph gltf) (r, ms, ids)) as H2.
  rewrite init_visits in H2.
  destruct (traverse init_callback (graph gltf) (r, ms, ids)) as [g' s'].
  simpl in *. congruence.
Qed.

End Init.

(** X10.  [init] visits the graph of the asset in the order of [traverse]: it
    adds to [morphTargetMeshes], in that order, exactly the meshes that
    have both a dictionary and an influence array; it takes the first bone
    as [root] unless a [root] is already set; and it switches
    [frustumCulled] off on every mesh, morph targets or not, and on
    nothing else.  The entries added are those objects of the graph, one
    entry for each. *)
Theorem init_collects_morph_meshes
    (root : option nat) (meshes : list THREE.Mesh) (ids : list nat)
    (gltf : AvatarLoad.GLTFAsset) :
  AvatarLoad.init root meshes ids gltf
  = (AvatarLoad.map_graph AvatarLoad.after_init (AvatarLoad.graph gltf),
     (match root with
      | Some _ => root
      | None =>
          AvatarLoad.first_bone (AvatarLoad.preorder (AvatarLoad.graph gltf))
      end,
      meshes
      ++ AvatarLoad.morph_meshes
           (AvatarLoad.preorder (AvatarLoad.graph gltf)),
      ids
      ++ AvatarLoad.morph_mesh_ids
           (AvatarLoad.preorder (AvatarLoad.graph gltf))))
  /\ Forall exposes_both
       (AvatarLoad.morph_meshes
          (AvatarLoad.preorder (AvatarLoad.graph gltf)))
  /\ length (AvatarLoad.morph_mesh_ids
               (AvatarLoad.preorder (AvatarLoad.graph gltf)))
     = length (AvatarLoad.morph_meshes
                 (AvatarLoad.preorder (AvatarLoad.graph gltf))).
Proof.
  split; [apply init_result|].
  split; [apply morph_meshes_expose_both|apply morph_mesh_ids_length].
Qed.

(** The first sample asset: the bone 11 becomes the root, the jaw mesh,
    object 13, is the one mesh collected, and both meshes lose
    [frustumCulled]. *)
Example init_first_asset :
  (AvatarLoad.init None [] [] first_asset).2
  = (Some 11%nat, [jaw_mesh], [13%nat])
  /\ AvatarLoad.frustumCulled
       <$> AvatarLoad.preorder (AvatarLoad.init None [] [] first_asset).1
     = [true; true; false; false].
Proof. split; reflexivity. Qed.

Section Calls.

Import AvatarLoad.

Lemma calls_snoc this cs c : calls this (cs ++ [c]) = call (calls this cs) c.
Proof. unfold calls. rewrite foldl_app. reflexivity. Qed.

Lemma loads_snoc cs c :
  loads (cs ++ [c])
  = loads cs ++ match c with Load gltf => [gltf] | _ => [] end.
Proof.
  unfold loads. rewrite omap_app. f_equal. destruct c; reflexivity.
Qed.

Lemma rig_shape_eq av av' :
  rig_shape av' = rig_shape av ->
  (Avatar.gltf av' = None <-> Avatar.gltf av = None)
  /\ mesh_shape <$> Avatar.morphTargetMeshes av'
     = mesh_shape <$> Avatar.morphTargetMeshes av.
Proof.
  unfold rig_shape. intros [= Hg Hm]. split; [|exact Hm].
  destruct (Avatar.gltf av), (Avatar.gltf av'); compute in Hg;
    split; intros H; try reflexivity; discriminate.
Qed.

Lemma onLoad_result this gltf :
  onLoad this gltf
  = {| url := url this;
       scene :=
         add (match Avatar.gltf (avatar this) with
              | Some _ => remove_from_previous (scene this) (gltfScene this)
              | None => scene this
              end)
             (map_graph after_init (graph gltf));
       avatar :=
         {| Avatar.gltf := Some (loaded gltf);
            Avatar.morphTargetMeshes :=
              match Avatar.gltf (avatar this) with
              | Some _ => []
              | None => Avatar.morphTargetMeshes (avatar this)
              end ++ morph_meshes (preorder (graph gltf)) |};
       morphTargetMeshIds :=
         match Avatar.gltf (avatar this) with
         | Some _ => []
         | None => morphTargetMeshIds this
         end ++ morph_mesh_ids (preorder (graph gltf));
       root :=
         match root this with
         | Some _ => root this
         | None => first_bone (preorder (graph gltf))
         end;
       gltfScene := Some (uuid (own_data (graph gltf))) |}.
Proof.
  unfold onLoad. destruct (Avatar.gltf (avatar this));
    rewrite init_result; reflexivity.
Qed.

(** What any sequence of calls on a new avatar keeps true. *)
Lemma calls_invariant url0 scene0 cs :
  (Avatar.gltf (avatar (calls (constructor url0 scene0) cs)) = None
   <-> loads cs = [])
  /\ mesh_shape
       <$> Avatar.morphTargetMeshes (avatar (calls (constructor url0 scene0) cs))
     = mesh_shape <$> meshes_of_last (loads cs)
  /\ root (calls (constructor url0 scene0) cs)
     = first_bone (loaded_objects (loads cs)).
Proof.
  induction cs as [|c cs IH] using rev_ind.
  - repeat split; reflexivity.
  - rewrite calls_snoc, loads_snoc.
    destruct IH as (Hg & Hm & Hr).
    set (this := calls (constructor url0 scene0) cs) in *.
    destruct c as [gltf|weights|matrix options]; cbn [call].
    + rewrite onLoad_result. cbn [avatar root Avatar.gltf
                                  Avatar.morphTargetMeshes].
      split; [split; [discriminate|intros H; destruct (loads cs); discriminate]|].
      split.
      * unfold meshes_of_last. rewrite last_snoc. f_equal.
        destruct (Avatar.gltf (avatar this)) eqn:E; [reflexivity|].
        destruct Hg as [Hg _]. rewrite (Hg eq_refl) in Hm.
        apply fmap_nil_inv in Hm. rewrite Hm. reflexivity.
      * unfold loaded_objects. rewrite flat_map_app. simpl.
        rewrite app_nil_r, first_bone_app.
        fold (loaded_objects (loads cs)). rewrite <- Hr.
        destruct (root this); reflexivity.
    + rewrite app_nil_r. cbn [avatar root].
      destruct (rig_shape_eq _ _ (updateBlendshapes_shape (avatar this) weights))
        as [Hg' Hm'].
      split; [rewrite Hg'; exact Hg|]. split; [rewrite Hm'; exact Hm|exact Hr].
    + rewrite app_nil_r. cbn [avatar root].
      destruct (rig_shape_eq _ _ (applyMatrix_shape (avatar this) matrix options))
        as [Hg' Hm'].
      split; [rewrite Hg'; exact Hg|]. split; [rewrite Hm'; exact Hm|exact Hr].
Qed.

Lemma mesh_shape_exposes_both meshes meshes' :
  mesh_shape <$> meshes = mesh_shape <$> meshes' ->
  Forall exposes_both meshes' -> Forall exposes_both meshes.
Proof.
  revert meshes'. induction meshes as [|m ms IH]; intros [|m' ms'] H Hf;
    try discriminate; [constructor|].
  rewrite !fmap_cons in H. injection H as Hd Hi Hrest.
  apply Forall_cons in Hf as [[Hd' Hi'] Hf]. constructor; [|eauto].
  unfold exposes_both. rewrite Hd. split; [exact Hd'|].
  destruct (THREE.morphTargetInfluences m); [eauto|].
  exfalso. revert Hi.
  rewrite bool_decide_eq_false_2 by (intros [? ?]; discriminate).
  rewrite bool_decide_eq_true_2 by exact Hi'. discriminate.
Qed.






















End Calls.

(** X11.  Whatever is called on a new avatar, and in whatever order: the asset
    is loaded exactly when a load has completed; the meshes in
    [morphTargetMeshes] are those of the asset loaded last, with their
    dictionaries, and none of an earlier asset; each one has a dictionary
    and an influence array, so the guard of [updateBlendshapes] never
    passes over a mesh; and right after a load the list is exactly the
    morph meshes of that asset. *)
Theorem calls_keep_meshes_of_last_load
    (url : string) (scene : list AvatarLoad.SceneObject)
    (cs : list AvatarLoad.Call) :
  (Avatar.gltf
     (AvatarLoad.avatar
        (AvatarLoad.calls (AvatarLoad.constructor url scene) cs)) = None
   <-> AvatarLoad.loads cs = [])
  /\ mesh_shape
       <$> Avatar.morphTargetMeshes
             (AvatarLoad.avatar
                (AvatarLoad.calls (AvatarLoad.constructor url scene) cs))
     = mesh_shape <$> meshes_of_last (AvatarLoad.loads cs)
  /\ Forall exposes_both
       (Avatar.morphTargetMeshes
          (AvatarLoad.avatar
             (AvatarLoad.calls (AvatarLoad.constructor url scene) cs)))
  /\ forall gltf,
       Avatar.morphTargetMeshes
         (AvatarLoad.avatar
            (AvatarLoad.calls (AvatarLoad.constructor url scene)
               (cs ++ [AvatarLoad.Load gltf])))
       = AvatarLoad.morph_meshes
           (AvatarLoad.preorder (AvatarLoad.graph gltf)).
Proof.
  destruct (calls_invariant url scene cs) as (Hg & Hm & _).
  split; [exact Hg|]. split; [exact Hm|]. split.
  - apply (mesh_shape_exposes_both _ _ Hm). unfold meshes_of_last.
    destruct (last (AvatarLoad.loads cs));
      [apply morph_meshes_expose_both|constructor].
  - intros gltf. rewrite calls_snoc. cbn [AvatarLoad.call].
    rewrite onLoad_result. cbn [AvatarLoad.avatar Avatar.morphTargetMeshes].
    destruct (Avatar.gltf _) eqn:E; [reflexivity|].
    destruct Hg as [Hg _]. rewrite (Hg eq_refl) in Hm.
    apply fmap_nil_inv in Hm. rewrite Hm. reflexivity.
Qed.

(** X12.  [root] is the first bone, in the order of [traverse], of the first
    loaded asset that has a bone: once set it stays, and a later asset
    does not replace it. *)
Theorem calls_root_is_first_bone_ever
    (url : string) (scene : list AvatarLoad.SceneObject)
    (cs : list AvatarLoad.Call) :
  AvatarLoad.root (AvatarLoad.calls (AvatarLoad.constructor url scene) cs)
  = AvatarLoad.first_bone (loaded_objects (AvatarLoad.loads cs)).
Proof. apply calls_invariant. Qed.



(** A load, then a frame's weights: the scene's own jaw mesh, object 13,
    holds the weight written, as the avatar's does. *)
Example calls_update_reaches_scene :
  influences_in_scene
    (AvatarLoad.scene
       (AvatarLoad.calls (AvatarLoad.constructor "a.glb" lights)
          [AvatarLoad.Load first_asset;
           AvatarLoad.UpdateBlendshapes sample_weights])) 13
  = Some (Some [Some 0.7%float; Some 0.2%float])
  /\ THREE.morphTargetInfluences
       <$> Avatar.morphTargetMeshes
             (AvatarLoad.avatar
                (AvatarLoad.calls (AvatarLoad.constructor "a.glb" lights)
                   [AvatarLoad.Load first_asset;
                    AvatarLoad.UpdateBlendshapes sample_weights]))
     = [Some [Some 0.7%float; Some 0.2%float]].
Proof. split; vm_compute; reflexivity. Qed.

(** Two loads with a frame's weights in between: the meshes are those of
    the second asset, with the influences it came with; the root is still
    the bone of the first. *)
Example calls_two_loads :
  Avatar.morphTargetMeshes
    (AvatarLoad.avatar
       (AvatarLoad.calls (AvatarLoad.constructor "a.glb" lights)
          [AvatarLoad.Load first_asset;
           AvatarLoad.UpdateBlendshapes sample_weights;
           AvatarLoad.Load second_asset]))
  = [jaw_mesh]
  /\ AvatarLoad.root
       (AvatarLoad.calls (AvatarLoad.constructor "a.glb" lights)
          [AvatarLoad.Load first_asset;
           AvatarLoad.UpdateBlendshapes sample_weights;
           AvatarLoad.Load second_asset])
     = Some 11%nat.
Proof. split; vm_compute; reflexivity. Qed.

(** ** Starting up *)

Section Includes.

Lemma prefix_append p s :
  String.prefix p s = true <-> exists t, s = (p ++ t)%string.
Proof.
  revert s. induction p as [|a p IH]; intros s.
  - split; [intros _; exists s; reflexivity|destruct s; reflexivity].
  - destruct s as [|b s]; simpl;
      [split; [discriminate|intros [t Ht]; discriminate]|].
    destruct (Ascii.ascii_dec a b) as [->|Hne].
    + rewrite IH. split; intros [t Ht]; exists t.
      * simpl. rewrite Ht. reflexivity.
      * simpl in Ht. injection Ht as Ht. exact Ht.
    + split; [discriminate|]. intros [t Ht]. simpl in Ht.
      injection Ht as Hab _. congruence.
Qed.

Lemma string_app_assoc (a b c : string) :
  ((a ++ b) ++ c = a ++ (b ++ c))%string.
Proof.
  induction a as [|x a IH]; [reflexivity|].
  change (String x ((a +:+ b) +:+ c) = String x (a +:+ (b +:+ c))).
  f_equal. exact IH.
Qed.

(** [includes] is the occurrence of a substring. *)
Lemma includes_occurs s p :
  includes s p = true <-> exists a b, s = (a ++ p ++ b)%string.
Proof.
  induction s as [|x s IH]; cbn [includes].
  - rewrite orb_false_r, prefix_append. split.
    + intros [t Ht]. exists EmptyString, t. exact Ht.
    + intros ([|y a] & b & H); [exists b; exact H|discriminate].
  - rewrite orb_true_iff, prefix_append, IH. split.
    + intros [[t Ht]|(a & b & H)].
      * exists EmptyString, t. exact Ht.
      * exists (String x a), b. simpl. rewrite H. reflexivity.
    + intros ([|y a] & b & H).
      * left. exists b. exact H.
      * right. simpl in H. injection H as -> H. exists a, b. exact H.
Qed.

Lemma includes_trans s p q :
  includes p q = true -> includes s p = true -> includes s q = true.
Proof.
  rewrite !includes_occurs. intros (a' & b' & ->) (a & b & ->).
  exists (a ++ a')%string, (b' ++ b)%string.
  rewrite !string_app_assoc. reflexivity.
Qed.

End Includes.

(** X14.  The test for ["DevicesNotFound"] never decides anything: a message
    that includes it includes ["NotFound"], which is tested first, so the
    text shown is the same with the test taken out. *)
Theorem error_text_DevicesNotFound_redundant (msg : string) :
  (includes msg "DevicesNotFound" = true -> includes msg "NotFound" = true)
  /\ error_text msg = error_text_without_DevicesNotFound msg.
Proof.
  assert (H : includes msg "DevicesNotFound" = true ->
              includes msg "NotFound" = true).
  { apply includes_trans. reflexivity. }
  split; [exact H|].
  unfold error_text, error_text_without_DevicesNotFound.
  destruct (includes msg "NotFound") eqn:E1; [reflexivity|].
  destruct (includes msg "DevicesNotFound"); [|reflexivity].
  specialize (H eq_refl). discriminate.
Qed.

(** X15.  When the loop over the delegates ends without throwing, the handle
    holds a detector that was created and whose options were set with the
    delegate tried last; the GPU is tried first, and the CPU only after the
    GPU attempt failed, with that failure passed to [console.warn]. *)
Theorem create_detector_success
    (env : Attempts) (faceLandmarker : option FaceLandmarker) :
  thrown (create_detector env faceLandmarker) = None ->
  exists delegate detector,
    last (tried (create_detector env faceLandmarker)) = Some delegate
    /\ handle (create_detector env faceLandmarker) = Some detector
    /\ createFromModelPath env delegate = inr detector
    /\ setOptions env detector delegate = None
    /\ match delegate with
       | GPU =>
           tried (create_detector env faceLandmarker) = [GPU]
           /\ warned (create_detector env faceLandmarker) = []
       | CPU =>
           tried (create_detector env faceLandmarker) = [GPU; CPU]
           /\ Some <$> warned (create_detector env faceLandmarker)
              = [attempt_failure env GPU]
       end.
Proof.
  unfold create_detector, attempt_failure. cbn [for_each_delegate].
  unfold try_delegate. cbn [handle tried warned].
  destruct (createFromModelPath env GPU) as [e1|d1] eqn:E1.
  - destruct (createFromModelPath env CPU) as [e2|d2] eqn:E2;
      [discriminate|].
    destruct (setOptions env d2 CPU) eqn:S2; [discriminate|].
    intros _. exists CPU, d2. rewrite E2. auto 10.
  - destruct (setOptions env d1 GPU) as [e1|] eqn:S1.
    + destruct (createFromModelPath env CPU) as [e2|d2] eqn:E2;
        [discriminate|].
      destruct (setOptions env d2 CPU) eqn:S2; [discriminate|].
      intros _. exists CPU, d2. rewrite E2. auto 10.
    + intros _. exists GPU, d1. rewrite E1. auto 10.
Qed.

Lemma create_detector_success_witness :
  tried (create_detector gpu_unavailable None) = [GPU; CPU]
  /\ warned (create_detector gpu_unavailable None) = [gpu_error].
Proof.
  destruct (create_detector_success gpu_unavailable None eq_refl)
    as ([|] & detector & Hlast & _ & _ & _ & H).
  - discriminate Hlast.
  - destruct H as [H1 H2]. split; [exact H1|].
    apply (inj (fmap Some)). exact H2.
Defined.

(** X16.  When the loop throws, both delegates were tried and the error thrown
    is the one of the CPU attempt; the error of the GPU attempt was passed
    to [console.warn] and is not the one shown.  The handle is not put
    back: it holds the detector created last, if one was created, though
    its options were never set. *)
Theorem create_detector_failure
    (env : Attempts) (faceLandmarker : option FaceLandmarker) (e : Thrown) :
  thrown (create_detector env faceLandmarker) = Some e ->
  tried (create_detector env faceLandmarker) = [GPU; CPU]
  /\ attempt_failure env CPU = Some e
  /\ Some <$> warned (create_detector env faceLandmarker)
     = [attempt_failure env GPU]
  /\ handle (create_detector env faceLandmarker)
     = match createFromModelPath env CPU, createFromModelPath env GPU with
       | inr detector, _ => Some detector
       | inl _, inr detector => Some detector
       | inl _, inl _ => faceLandmarker
       end.
Proof.
  unfold create_detector, attempt_failure. cbn [for_each_delegate].
  unfold try_delegate. cbn [handle tried warned].
  destruct (createFromModelPath env GPU) as [e1|d1] eqn:E1.
  - destruct (createFromModelPath env CPU) as [e2|d2] eqn:E2.
    + intros [= <-]. auto.
    + destruct (setOptions env d2 CPU) eqn:S2; [|discriminate].
      intros [= <-]. auto.
  - destruct (setOptions env d1 GPU) as [e1|] eqn:S1; [|discriminate].
    destruct (createFromModelPath env CPU) as [e2|d2] eqn:E2.
    + intros [= <-]. auto.
    + destruct (setOptions env d2 CPU) eqn:S2; [|discriminate].
      intros [= <-]. auto.
Qed.

Lemma create_detector_failure_witness :
  handle (create_detector network_lost None)
    = Some (constant_detector pose_only)
  /\ error_text (message_of fetch_error)
     = "Network error loading model. Check connection and try again.".
Proof.
  destruct (create_detector_failure network_lost None fetch_error eq_refl)
    as (_ & _ & _ & H).
  split; [exact H|reflexivity].
Defined.

(** ** The two copies of the retargeter, called again *)

(** X17.  Called again on the array it has already been given, the earlier copy
    of [retarget] boosts the four names a second time, since the first
    call left the boosted scores in the entries: the weight is
    [score * 1.2 * 1.2].  The gain-table [retarget] returns the same map
    again. *)
Theorem legacy_retarget_compounds
    (scores : list Category) (others : list Classifications) (e : Category) :
  NoDup (categoryName <$> scores) ->
  e ∈ scores ->
  legacy_boosted (categoryName e) = true ->
  (exists after_first,
     input_after (Legacy.retarget ({| categories := scores |} :: others))
       = Some after_first
     /\ weight_from (Legacy.retarget after_first) (categoryName e)
        = Some (score e * 1.2 * 1.2)%float)
  /\ (exists after_first coefsMap,
        retarget ({| categories := scores |} :: others)
          = Some (after_first, coefsMap)
        /\ retarget after_first = Some (after_first, coefsMap)).
Proof.
  intros Hnd He Hb. split.
  - unfold input_after, Legacy.retarget at 1. cbn [categories].
    pose proof (for_each_entries _ _ _ legacy_retarget_body_sets scores
                  JsMap.empty) as H1.
    destruct (for_each_category Legacy.retarget_body scores _) as [c1 m1].
    simpl in H1. subst c1. eexists. split; [reflexivity|].
    unfold weight_from, Legacy.retarget. cbn [fst categories].
    assert (Hnd' : NoDup (categoryName <$> (legacy_entry <$> scores))).
    { rewrite <- list_fmap_compose.
      rewrite (list_fmap_ext (categoryName ∘ legacy_entry) categoryName scores)
        by (intros i x _; apply legacy_entry_name).
      exact Hnd. }
    assert (He' : legacy_entry e ∈ legacy_entry <$> scores)
      by (apply list_elem_of_fmap_2, He).
    pose proof (for_each_get _ _ _ legacy_retarget_body_sets
                  (legacy_entry <$> scores) JsMap.empty (legacy_entry e)
                  Hnd' He') as H2.
    destruct (for_each_category Legacy.retarget_body (legacy_entry <$> scores) _)
      as [c2 m2].
    cbn [snd] in H2. rewrite legacy_entry_name in H2.
    change (JsMap.get (categoryName e) m2
            = Some (score e * 1.2 * 1.2)%float).
    rewrite H2. unfold legacy_entry. rewrite Hb.
    cbn [categoryName score]. rewrite Hb. reflexivity.
  - unfold retarget. cbn [categories].
    pose proof (for_each_entries _ _ _ retarget_body_sets scores JsMap.empty)
      as H1.
    destruct (for_each_category retarget_body scores _) as [c1 m1] eqn:E.
    simpl in H1. rewrite list_fmap_id in H1. subst c1.
    eexists _, _. split; [reflexivity|]. cbn [categories]. rewrite E.
    reflexivity.
Qed.

Lemma legacy_retarget_compounds_witness :
  exists after_first,
    input_after (Legacy.retarget (one_face [entry "eyeBlinkLeft" 0.5]))
      = Some after_first
    /\ weight_from (Legacy.retarget after_first) "eyeBlinkLeft"
       = Some (0.5 * 1.2 * 1.2)%float.
Proof.
  refine (proj1 (legacy_retarget_compounds [entry "eyeBlinkLeft" 0.5] []
                   (entry "eyeBlinkLeft" 0.5) _ _ eq_refl)).
  - apply NoDup_singleton.
  - apply list_elem_of_here.
Defined.

(** ** The gain selection and matching without regard to case *)




